(** * Line-ending normaliser (normalize_line_endings.py)

    A shallow embedding of the script and of the Python built-ins it calls,
    followed by the properties of the tool.

    Conventions of the embedding:
    - a Python [str] is a list of Unicode code points ([N]);
    - a Python [bytes] is a list of [Byte.byte];
    - Python integers are [Z];
    - a raised exception is a value of type [exn]; a computation that may
      raise lives in the monad [M] (state of the world plus exception);
    - the standard output is the list of lines printed so far. *)

From Stdlib Require Import NArith ZArith Lia List.
From Stdlib.Strings Require Import Ascii String Byte.
From stdpp Require Import base list option gmap.

Set Warnings "-register-all".

#[local] Open Scope N_scope.

(** ** Python strings and bytes *)

Abbreviation str := (list N).
Abbreviation bytes := (list byte).

(** A string literal of the source, as code points. *)
Definition lit (s : string) : str := N_of_ascii <$> list_ascii_of_string s.

Definition CR : N := 13.
Definition LF : N := 10.

(** [s.startswith(p)] *)
Fixpoint startswith (s p : str) {struct p} : bool :=
  match p with
  | [] => true
  | a :: p' =>
      match s with
      | [] => false
      | c :: s' => (a =? c) && startswith s' p'
      end
  end.

(** [s.replace(old, new)] for a non-empty [old]: the occurrences of [old]
    are found from the left and do not overlap.  [skip] counts the
    characters of an occurrence that are still to be dropped. *)
Fixpoint replace_from (old new : str) (skip : nat) (s : str) : str :=
  match s with
  | [] => []
  | c :: s' =>
      match skip with
      | S k => replace_from old new k s'
      | O =>
          if startswith s old
          then new ++ replace_from old new (length old - 1) s'
          else c :: replace_from old new 0 s'
      end
  end.

Definition str_replace (old new s : str) : str := replace_from old new 0 s.

(** ** Codecs *)

Definition byte_of_N (n : N) : byte :=
  match Byte.of_N n with Some b => b | None => x00 end.

(** [bytes.decode('latin-1')]: one code point per byte, never fails. *)
Definition decode_latin1 (bs : bytes) : option str := Some (Byte.to_N <$> bs).

Definition in_range (lo hi x : N) : bool := (lo <=? x) && (x <=? hi).

(** [bytes.decode('utf-8')] in strict mode: [None] stands for
    UnicodeDecodeError.  Overlong forms, surrogates and values above
    U+10FFFF are rejected, as in CPython. *)
Fixpoint decode_utf8 (bs : bytes) : option str :=
  match bs with
  | [] => Some []
  | b0 :: r0 =>
      let x0 := Byte.to_N b0 in
      if x0 <? 0x80 then cons x0 <$> decode_utf8 r0
      else if x0 <? 0xC2 then None
      else if x0 <? 0xE0 then
        match r0 with
        | b1 :: r1 =>
            let x1 := Byte.to_N b1 in
            if in_range 0x80 0xBF x1
            then cons ((x0 - 0xC0) * 64 + (x1 - 0x80)) <$> decode_utf8 r1
            else None
        | _ => None
        end
      else if x0 <? 0xF0 then
        match r0 with
        | b1 :: b2 :: r2 =>
            let x1 := Byte.to_N b1 in
            let x2 := Byte.to_N b2 in
            if in_range (if x0 =? 0xE0 then 0xA0 else 0x80)
                        (if x0 =? 0xED then 0x9F else 0xBF) x1
               && in_range 0x80 0xBF x2
            then cons ((x0 - 0xE0) * 4096 + (x1 - 0x80) * 64 + (x2 - 0x80))
                   <$> decode_utf8 r2
            else None
        | _ => None
        end
      else if x0 <? 0xF5 then
        match r0 with
        | b1 :: b2 :: b3 :: r3 =>
            let x1 := Byte.to_N b1 in
            let x2 := Byte.to_N b2 in
            let x3 := Byte.to_N b3 in
            if in_range (if x0 =? 0xF0 then 0x90 else 0x80)
                        (if x0 =? 0xF4 then 0x8F else 0xBF) x1
               && in_range 0x80 0xBF x2 && in_range 0x80 0xBF x3
            then cons ((x0 - 0xF0) * 262144 + (x1 - 0x80) * 4096
                       + (x2 - 0x80) * 64 + (x3 - 0x80))
                   <$> decode_utf8 r3
            else None
        | _ => None
        end
      else None
  end.

(** The UTF-8 form of one code point; [None] stands for UnicodeEncodeError
    (a surrogate, which UTF-8 cannot carry). *)
Definition encode_utf8_char (c : N) : option bytes :=
  if c <? 0x80 then Some [byte_of_N c]
  else if c <? 0x800 then
    Some [byte_of_N (0xC0 + c / 64); byte_of_N (0x80 + c mod 64)]
  else if c <? 0x10000 then
    if in_range 0xD800 0xDFFF c then None
    else Some [byte_of_N (0xE0 + c / 4096);
               byte_of_N (0x80 + (c / 64) mod 64);
               byte_of_N (0x80 + c mod 64)]
  else if c <? 0x110000 then
    Some [byte_of_N (0xF0 + c / 262144);
          byte_of_N (0x80 + (c / 4096) mod 64);
          byte_of_N (0x80 + (c / 64) mod 64);
          byte_of_N (0x80 + c mod 64)]
  else None.

(** [str.encode('utf-8')] *)
Fixpoint encode_utf8 (s : str) : option bytes :=
  match s with
  | [] => Some []
  | c :: s' =>
      match encode_utf8_char c, encode_utf8 s' with
      | Some bs, Some r => Some (bs ++ r)
      | _, _ => None
      end
  end.

(** [s.rfind(c)] for a one-character [c]: the last index, or -1. *)
Fixpoint rfind (c : N) (s : str) : Z :=
  match s with
  | [] => (-1)%Z
  | x :: s' =>
      let r := rfind c s' in
      if (0 <=? r)%Z then (r + 1)%Z else if x =? c then 0%Z else (-1)%Z
  end.

Definition isascii (s : str) : bool := forallb (λ c, c <? 128) s.

Definition ascii_lower (c : N) : N := if in_range 65 90 c then c + 32 else c.

(** ** pathlib

    A path is the list of its components.  The script builds every file
    path as [Path(root) / filename] with [filename] a directory entry, so
    that the final component is that entry's name. *)

Abbreviation path := (list str).

(** [PurePath.name] *)
Definition name (p : path) : str := default [] (last p).

(** [PurePath.suffix] (pathlib up to Python 3.13):
    [i = name.rfind('.')]; [name[i:]] if [0 < i < len(name) - 1], else ['']. *)
Definition suffix (p : path) : str :=
  let nm := name p in
  let i := rfind 46 nm in
  if ((0 <? i) && (i <? Z.of_nat (length nm) - 1))%Z
  then drop (Z.to_nat i) nm
  else [].

(** [p.relative_to(base)]: [None] stands for ValueError. *)
Fixpoint relative_to (p base : path) {struct base} : option path :=
  match base with
  | [] => Some p
  | b :: base' =>
      match p with
      | c :: p' => if decide (b = c) then relative_to p' base' else None
      | [] => None
      end
  end.

(** ** Configuration *)

Definition EXTENSIONS : gset str :=
  list_to_set (lit <$>
    [".js"; ".jsx"; ".ts"; ".tsx";
     ".py"; ".sh"; ".bash";
     ".json"; ".jsonc";
     ".css"; ".scss"; ".sass"; ".less";
     ".html"; ".htm"; ".xml"; ".svg";
     ".md"; ".markdown"; ".txt";
     ".yml"; ".yaml";
     ".env"; ".gitignore"; ".gitattributes";
     ".sql"]%string).

Definition EXCLUDED_DIRS : gset str :=
  list_to_set (lit <$>
    ["node_modules"; ".git"; "dist"; "build"; "__pycache__";
     ".next"; "out"; "coverage"; ".cache"; "venv"; "env"]%string).

(** The set literal of line 37. *)
Definition DOTFILES : gset str :=
  list_to_set (lit <$> [".env"; ".gitignore"; ".gitattributes"]%string).

(** ** File selection *)

Section Selection.
(** [str.lower()] on a string with a non-ASCII character follows the
    Unicode case tables, which are taken as a parameter. *)
Variable unicode_lower : str → str.

Definition str_lower (s : str) : str :=
  if isascii s then ascii_lower <$> s else unicode_lower s.

Definition should_process_file (file_path : path) : bool :=
  if negb (bool_decide (str_lower (suffix file_path) ∈ EXTENSIONS)) then
    if bool_decide (suffix file_path = []) && startswith (name file_path) (lit ".")
    then bool_decide (name file_path ∈ DOTFILES)
    else false
  else true.
End Selection.

(** ** The file system

    A tree of directories and regular files.  A file carries its bytes,
    its permission bits and a modification stamp that every truncation or
    write advances.  Symbolic links and special files are outside the
    model, and nothing but the tool touches the tree during a run. *)

Record file := File {
  f_content : bytes;
  f_readable : bool;
  f_writable : bool;
  f_mtime : nat
}.

Inductive node :=
  | NFile (f : file)
  | NDir (entries : list (str * node)).

Fixpoint assoc {A} (k : str) (es : list (str * A)) : option A :=
  match es with
  | [] => None
  | (k', v) :: es' => if decide (k = k') then Some v else assoc k es'
  end.

Fixpoint lookup_path (n : node) (p : path) : option node :=
  match p with
  | [] => Some n
  | c :: p' =>
      match n with
      | NDir es =>
          match assoc c es with
          | Some n' => lookup_path n' p'
          | None => None
          end
      | NFile _ => None
      end
  end.

Definition file_at (n : node) (p : path) : option file :=
  match lookup_path n p with
  | Some (NFile f) => Some f
  | _ => None
  end.

(** Rewrite the first entry named [k] with [g], or add an entry when
    there is none and [g None] gives one. *)
Fixpoint set_entry (k : str) (g : option node → option node)
    (es : list (str * node)) : list (str * node) :=
  match es with
  | [] => match g None with Some n => [(k, n)] | None => [] end
  | (k', n') :: es' =>
      if decide (k = k') then (k', default n' (g (Some n'))) :: es'
      else (k', n') :: set_entry k g es'
  end.

(** Put the regular file [f] at [p]: in place of the file that is there,
    or as a new entry of an existing parent directory. *)
Fixpoint store_file (n : node) (p : path) (f : file) : node :=
  match p with
  | [] => match n with NFile _ => NFile f | NDir _ => n end
  | c :: p' =>
      match n with
      | NDir es =>
          NDir (set_entry c
                  (λ o, match o with
                        | Some n' => Some (store_file n' p' f)
                        | None => match p' with [] => Some (NFile f) | _ => None end
                        end) es)
      | NFile _ => n
      end
  end.

(** ** Exceptions, output and the monad of the script *)

Inductive exn :=
  | FileNotFoundError
  | IsADirectoryError
  | PermissionError
  | UnicodeEncodeError
  | ValueError
  | SystemExit (code : Z).

(** [isinstance(e, Exception)]: SystemExit derives from BaseException only. *)
Definition is_Exception (e : exn) : bool :=
  match e with SystemExit _ => false | _ => true end.

(** The lines the script prints, with the values they interpolate. *)
Inductive line :=
  | SkippingEncodingIssue (file_path : path)
  | ErrorProcessing (file_path : path) (e : exn)
  | ErrorNoDirectory (start_dir : path)
  | Scanning (start_dir : path)
  | ExtensionsLine
  | ExcludingLine
  | Normalized (relative_path : path)
  | Rule
  | SummaryHeader
  | FilesProcessed (n : Z)
  | FilesChanged (n : Z)
  | FilesUnchanged (n : Z).

Record world := World { fs : node; stdout : list line }.

Definition M (A : Type) : Type := world → (exn + A) * world.

Definition raise {A} (e : exn) : M A := λ w, (inl e, w).

#[global] Instance M_ret : MRet M := λ A a w, (inr a, w).

#[global] Instance M_bind : MBind M := λ A B k m w,
  match m w with
  | (inr a, w') => k a w'
  | (inl e, w') => (inl e, w')
  end.

Abbreviation ret := mret.

(** [try: m except Exception as e: h e] *)
Definition try_except {A} (m : M A) (h : exn → M A) : M A :=
  λ w, match m w with
       | (inl e, w') => if is_Exception e then h e w' else (inl e, w')
       | r => r
       end.

Definition print (l : line) : M unit :=
  λ w, (inr (), World (fs w) (stdout w ++ [l])).

Definition of_option {A} (e : exn) (o : option A) : M A :=
  match o with Some a => ret a | None => raise e end.

(** [with open(p, 'rb') as f: f.read()] *)
Definition read_rb (p : path) : M bytes :=
  λ w, match lookup_path (fs w) p with
       | Some (NFile f) =>
           if f_readable f then (inr (f_content f), w)
           else (inl PermissionError, w)
       | Some (NDir _) => (inl IsADirectoryError, w)
       | None => (inl FileNotFoundError, w)
       end.

(** [open(p, 'wb')]: an existing file is truncated, a missing one is
    created when its parent directory exists.  The handle is the path. *)
Definition open_wb (p : path) : M path :=
  λ w, match lookup_path (fs w) p with
       | Some (NFile f) =>
           if f_writable f
           then (inr p, World (store_file (fs w) p
                                 (File [] (f_readable f) (f_writable f)
                                       (S (f_mtime f))))
                              (stdout w))
           else (inl PermissionError, w)
       | Some (NDir _) => (inl IsADirectoryError, w)
       | None =>
           match lookup_path (fs w) (removelast p) with
           | Some (NDir _) =>
               (inr p, World (store_file (fs w) p (File [] true true 0))
                             (stdout w))
           | _ => (inl FileNotFoundError, w)
           end
       end.

(** [f.write(data)] on a handle just opened with ['wb'] *)
Definition f_write (h : path) (data : bytes) : M unit :=
  λ w, match file_at (fs w) h with
       | Some f =>
           (inr (), World (store_file (fs w) h
                             (File data (f_readable f) (f_writable f)
                                   (S (f_mtime f))))
                          (stdout w))
       | None => (inr (), w)
       end.

(** ** normalize_line_endings *)

Definition normalize_body (file_path : path) : M bool :=
  content ← read_rb file_path;
  match
    match decode_utf8 content with
    | Some text => Some text
    | None => decode_latin1 content
    end
  with
  | None => (print (SkippingEncodingIssue file_path);; ret false)
  | Some text =>
      let original_text := text in
      let text := str_replace [CR] [LF] (str_replace [CR; LF] [LF] text) in
      if bool_decide (text ≠ original_text) then
        (f ← open_wb file_path;
         data ← of_option UnicodeEncodeError (encode_utf8 text);
         f_write f data;;
         ret true)
      else ret false
  end.

Definition normalize_line_endings (file_path : path) : M bool :=
  try_except (normalize_body file_path)
    (λ e, print (ErrorProcessing file_path e);; ret false).

(** ** os.walk

    The generator of [os.walk(top)] (top-down, errors ignored, links not
    followed): each step hands out [(root, dirs, files)] and is resumed
    with the list [dirs] as the caller left it; it then walks those
    sub-directories in order, before the rest. *)

Inductive walker :=
  | Stop
  | Yield (root : path) (dirs files : list str) (resume : list str → walker).

Definition is_dir (n : node) : bool :=
  match n with NDir _ => true | NFile _ => false end.

(** The entries of a directory, each child replaced by what [F] makes of
    its name and node. *)
Definition children {B} (F : str → node → B)
    : list (str * node) → list (str * B) :=
  fix sub es :=
    match es with
    | [] => []
    | (nm, c) :: es' => (nm, F nm c) :: sub es'
    end.

Fixpoint os_walk (top : path) (n : node) (rest : walker) : walker :=
  match n with
  | NFile _ => rest
  | NDir es =>
      Yield top
        (fst <$> filter (λ e, is_dir e.2 = true) es)
        (fst <$> filter (λ e, is_dir e.2 = false) es)
        (λ dirs,
           foldr (λ d k,
                    match assoc d (children (λ nm c, os_walk (top ++ [nm]) c) es)
                    with
                    | Some walk_d => walk_d k
                    | None => k
                    end) rest dirs)
  end.

(** The generator is made from the tree as it is when the loop starts.
    Python reads each directory only when the walk reaches it; the two
    agree because the loop overwrites regular files and nothing else
    (lemma [os_walk_store] below). *)
Definition os_walk_at (top : path) : M walker :=
  λ w, (inr match lookup_path (fs w) top with
            | Some n => os_walk top n Stop
            | None => Stop
            end, w).

(** [Path.exists()] *)
Definition path_exists (p : path) : M bool :=
  λ w, (inr (bool_decide (is_Some (lookup_path (fs w) p))), w).

(** ** main *)

Fixpoint for_each {A S} (body : S → A → M S) (s : S) (l : list A) : M S :=
  match l with
  | [] => ret s
  | a :: l' => s' ← body s a; for_each body s' l'
  end.

Section Main.
Variable unicode_lower : str → str.

(** The body of the loop over [files] (lines 101-109); the counters are
    [(processed_count, changed_count)]. *)
Definition visit (start_dir root : path) (counts : Z * Z) (filename : str)
    : M (Z * Z) :=
  let file_path := root ++ [filename] in
  if should_process_file unicode_lower file_path then
    let processed_count := (counts.1 + 1)%Z in
    relative_path ← of_option ValueError (relative_to file_path start_dir);
    changed ← normalize_line_endings file_path;
    if (changed : bool) then
      let changed_count := (counts.2 + 1)%Z in
      (print (Normalized relative_path);;
       ret (processed_count, changed_count))
    else ret (processed_count, counts.2)
  else ret counts.

(** The loop over [os.walk(start_dir)] (lines 95-109). *)
Fixpoint walk_loop (start_dir : path) (w : walker) (counts : Z * Z)
    : M (Z * Z) :=
  match w with
  | Stop => ret counts
  | Yield root dirs files resume =>
      let dirs := filter (λ d, d ∉ EXCLUDED_DIRS) dirs in
      counts ← for_each (visit start_dir root) counts files;
      walk_loop start_dir (resume dirs) counts
  end.

(** [argv] is [sys.argv] with each argument already parsed as a path,
    [cwd] is [Path.cwd()]. *)
Definition main (argv : list path) (cwd : path) : M unit :=
  let start_dir := if decide (1 < length argv)%nat
                   then default [] (argv !! 1%nat) else cwd in
  found ← path_exists start_dir;
  (if negb found
   then (print (ErrorNoDirectory start_dir);; raise (SystemExit 1))
   else ret ());;
  print (Scanning start_dir);;
  print ExtensionsLine;;
  print ExcludingLine;;
  w ← os_walk_at start_dir;
  counts ← walk_loop start_dir w (0, 0)%Z;
  print Rule;;
  print SummaryHeader;;
  print (FilesProcessed counts.1);;
  print (FilesChanged counts.2);;
  print (FilesUnchanged (counts.1 - counts.2));;
  print Rule.

End Main.

(** ** Vocabulary of the properties *)

(** Line 63 as a function of the decoded text. *)
Definition normalize_text (text : str) : str :=
  str_replace [CR] [LF] (str_replace [CR; LF] [LF] text).

(** The text the normaliser works on: the UTF-8 reading of the bytes, or
    their latin-1 reading when they are not UTF-8. *)
Definition decoded (content : bytes) : str :=
  match decode_utf8 content with
  | Some text => text
  | None => Byte.to_N <$> content
  end.

(** The number of line terminators of a text: a CR LF pair, a CR not
    followed by LF, and an LF not preceded by CR each count once. *)
Fixpoint line_terminators (s : str) : nat :=
  match s with
  | [] => 0
  | c :: s' =>
      if c =? CR then
        match s' with
        | d :: s'' =>
            if d =? LF then S (line_terminators s'')
            else S (line_terminators s')
        | [] => 1
        end
      else if c =? LF then S (line_terminators s')
      else line_terminators s'
  end.

Definition occurrences (c : N) (s : str) : nat :=
  length (filter (λ x, x = c) s).

(** A byte string seen as numbers: its terminators and occurrences are
    those of that sequence. *)
Definition values (bs : bytes) : str := Byte.to_N <$> bs.

(** A Unicode scalar value: what UTF-8 can carry. *)
Definition scalar (c : N) : Prop :=
  c < 0x110000 ∧ ¬ (0xD800 ≤ c ≤ 0xDFFF).

(** [u] reads as [t] on the ASCII positions: the two agree character by
    character below 128, and a non-empty run of numbers from 128 up in
    [u] stands for one character from 128 up in [t].  The bytes of a
    UTF-8 text stand in this relation to the text. *)
Inductive ascii_aligned : str → str → Prop :=
  | aligned_nil : ascii_aligned [] []
  | aligned_ascii c u t :
      c < 0x80 → ascii_aligned u t → ascii_aligned (c :: u) (c :: t)
  | aligned_multi pre c u t :
      pre ≠ [] → Forall (λ x, 0x80 ≤ x) pre → 0x80 ≤ c →
      ascii_aligned u t → ascii_aligned (pre ++ u) (c :: t).

(** The file the normaliser leaves in place of [f] when it rewrites it. *)
Definition rewritten_file (f : file) : file :=
  File (default [] (encode_utf8 (normalize_text (decoded (f_content f)))))
       (f_readable f) (f_writable f) (S (S (f_mtime f))).

(** The outcome of a call that reports the exception [e]. *)
Definition reported (file_path : path) (e : exn) (w : world)
    : (exn + bool) * world :=
  (inr false, World (fs w) (stdout w ++ [ErrorProcessing file_path e])).

(** The UTF-8 form of a latin-1 character: itself below 128, two bytes
    from 128 up. *)
Definition latin1_as_utf8 (c : N) : bytes :=
  if c <? 0x80 then [byte_of_N c]
  else [byte_of_N (0xC0 + c / 64); byte_of_N (0x80 + c mod 64)].

(** How many characters of a text are not ASCII. *)
Definition non_ascii (s : str) : nat := length (filter (λ x, 0x80 ≤ x) s).

(** How many CR LF pairs a text has. *)
Fixpoint crlf_pairs (s : str) : nat :=
  match s with
  | [] => 0
  | c :: s' =>
      if (c =? CR) && startswith s' [LF] then S (crlf_pairs s')
      else crlf_pairs s'
  end.

(** The bytes of the example of the specification, b"a\r\nb\rc\n", and
    what the tool makes of them, b"a\nb\nc\n". *)
Definition example_input : bytes := [x61; x0d; x0a; x62; x0d; x63; x0a].
Definition example_output : bytes := [x61; x0a; x62; x0a; x63; x0a].

(** A one-file tree for the examples: [a.txt], readable and writable. *)
Definition example_file (content : bytes) : file := File content true true 0.
Definition example_path : path := [lit "a.txt"].
Definition example_world (content : bytes) : world :=
  World (NDir [(lit "a.txt", NFile (example_file content))]) [].

(** The start directory of a run (line 81). *)
Definition start_dir_of (argv : list path) (cwd : path) : path :=
  if decide (1 < length argv)%nat then default [] (argv !! 1%nat) else cwd.

(** The loop body as a function of the file path it builds. *)
Definition visit_path (ul : str → str) (start_dir : path) (counts : Z * Z)
    (file_path : path) : M (Z * Z) :=
  visit ul start_dir (removelast file_path) counts (name file_path).

(** The file paths the loop of [main] goes through when it walks the tree
    [n] found at [top], in order: the files of a directory first, then its
    sub-directories one after the other, those with an excluded name left
    out. *)
Fixpoint tree_files (top : path) (n : node) : list path :=
  match n with
  | NFile _ => []
  | NDir es =>
      ((λ f, top ++ [f]) <$> (fst <$> filter (λ e, is_dir e.2 = false) es))
      ++ concat
           ((λ d, default []
                    (assoc d (children (λ nm c, tree_files (top ++ [nm]) c) es)))
              <$> filter (λ d, d ∉ EXCLUDED_DIRS)
                    (fst <$> filter (λ e, is_dir e.2 = true) es))
  end.

(** The lines the loop prints. *)
Definition progress_line (l : line) : Prop :=
  match l with
  | Normalized _ | ErrorProcessing _ _ => True
  | _ => False
  end.

Definition header (start_dir : path) : list line :=
  [Scanning start_dir; ExtensionsLine; ExcludingLine].

Definition summary (counts : Z * Z) : list line :=
  [Rule; SummaryHeader; FilesProcessed counts.1; FilesChanged counts.2;
   FilesUnchanged (counts.1 - counts.2); Rule].

(** [n'] is [n] after some regular files at paths satisfying [P] were
    overwritten. *)
Inductive rewritten (P : path → Prop) : node → node → Prop :=
  | rewritten_refl n : rewritten P n n
  | rewritten_step n p f0 f n' :
      P p → lookup_path n p = Some (NFile f0) →
      rewritten P (store_file n p f) n' → rewritten P n n'.

(** A call of [normalize_line_endings] on [p] has nothing to convert:
    what is at [p] is no regular file, or cannot be read, or cannot be
    written, or has no CR. *)
Definition settled (n : node) (p : path) : Prop :=
  match file_at n p with
  | Some f =>
      f_readable f = true → f_writable f = true →
      CR ∉ decoded (f_content f)
  | None => True
  end.


Definition error_line (l : line) : Prop :=
  match l with ErrorProcessing _ _ => True | _ => False end.

(** A project tree for the examples: a file with mixed terminators, a
    dependency directory and a source directory. *)
Definition example_project : node :=
  NDir [(lit "a.txt", NFile (example_file example_input));
        (lit "node_modules",
         NDir [(lit "x.js", NFile (example_file [x0d; x0a]))]);
        (lit "src",
         NDir [(lit "m.py", NFile (example_file [x61; x0d]));
               (lit "ro.md", NFile (File [x0d] true false 0))])].

(** How many lines of an output satisfy a test. *)
Definition count_lines (test : line → bool) (ls : list line) : nat :=
  length (filter (λ l, test l = true) ls).

Definition is_normalized (l : line) : bool :=
  match l with Normalized _ => true | _ => false end.

Definition is_error (l : line) : bool :=
  match l with ErrorProcessing _ _ => true | _ => false end.

(** A tree in which the entries of every directory have distinct names,
    as on a real file system. *)
Inductive wf_tree : node → Prop :=
  | wf_file f : wf_tree (NFile f)
  | wf_dir es :
      NoDup es.*1 → Forall (λ e, wf_tree e.2) es → wf_tree (NDir es).

(** The two file systems hold the same files and directories at the same
    paths, each file with the permissions it had. *)
Definition same_entries (n n' : node) : Prop :=
  ∀ q,
    match lookup_path n q, lookup_path n' q with
    | Some (NFile f), Some (NFile f') =>
        f_readable f' = f_readable f ∧ f_writable f' = f_writable f
    | Some (NDir _), Some (NDir _) => True
    | None, None => True
    | _, _ => False
    end.

(** ** Properties of the string operations *)

Lemma replace_crlf_nil : str_replace [CR; LF] [LF] [] = [].
Proof. reflexivity. Qed.

Lemma replace_crlf_pair s :
  str_replace [CR; LF] [LF] (CR :: LF :: s) = LF :: str_replace [CR; LF] [LF] s.
Proof. reflexivity. Qed.

Lemma replace_crlf_other c s :
  startswith (c :: s) [CR; LF] = false →
  str_replace [CR; LF] [LF] (c :: s) = c :: str_replace [CR; LF] [LF] s.
Proof. unfold str_replace. cbn [replace_from]. by intros ->. Qed.

Lemma startswith_crlf c s :
  startswith (c :: s) [CR; LF] = true ↔ c = CR ∧ ∃ s', s = LF :: s'.
Proof.
  cbn [startswith]. destruct (N.eqb_spec CR c) as [<-|Hc]; cbn [andb].
  - destruct s as [|d s'].
    + split; [done|]. by intros [_ [? ?]].
    + destruct (N.eqb_spec LF d) as [<-|Hd]; cbn [andb].
      * split; [eauto|done].
      * split; [done|]. intros [_ [? [= ? ?]]]. done.
  - split; [done|]. intros [? _]. done.
Qed.

Lemma replace_cr_map s :
  str_replace [CR] [LF] s = (λ c, if c =? CR then LF else c) <$> s.
Proof.
  unfold str_replace. induction s as [|c s IH]; [done|].
  cbn [replace_from startswith length].
  change (1 - 1)%nat with 0%nat. rewrite IH, fmap_cons.
  rewrite (N.eqb_sym CR c). by destruct (c =? CR).
Qed.

(** Induction along the way [replace('\r\n', '\n')] reads a text. *)
Lemma crlf_ind (P : str → Prop) :
  P [] →
  (∀ s, P s → P (CR :: LF :: s)) →
  (∀ c s, startswith (c :: s) [CR; LF] = false → P s → P (c :: s)) →
  ∀ s, P s.
Proof.
  intros Hnil Hpair Hother s.
  assert (P s ∧ ∀ c, P (c :: s)) as [? _]; [|done].
  induction s as [|d s [IH1 IH2]].
  - split; [done|]. intros c. apply Hother; [|done].
    cbn [startswith]. apply andb_false_r.
  - split; [done|]. intros c.
    destruct (startswith (c :: d :: s) [CR; LF]) eqn:E.
    + apply startswith_crlf in E as [-> [s' [= -> ->]]]. by apply Hpair.
    + by apply Hother.
Qed.

Lemma elem_of_replace_cr s : CR ∉ str_replace [CR] [LF] s.
Proof.
  rewrite replace_cr_map. intros (c & Hc & _)%list_elem_of_fmap.
  destruct (N.eqb_spec c CR); [done|]. congruence.
Qed.

Lemma normalize_text_no_CR s : CR ∉ normalize_text s.
Proof. apply elem_of_replace_cr. Qed.

Lemma replace_crlf_id s : CR ∉ s → str_replace [CR; LF] [LF] s = s.
Proof.
  induction s as [|s IH|c s Hc IH] using crlf_ind; intros Hs.
  - done.
  - exfalso. apply Hs. left.
  - rewrite replace_crlf_other by done. f_equal. apply IH.
    intros ?. apply Hs. by right.
Qed.

Lemma replace_cr_id s : CR ∉ s → str_replace [CR] [LF] s = s.
Proof.
  rewrite replace_cr_map. induction s as [|c s IH]; [done|].
  intros Hs. cbn. rewrite IH by (intros ?; apply Hs; by right).
  destruct (N.eqb_spec c CR) as [->|]; [|done].
  exfalso. apply Hs. left.
Qed.

Lemma normalize_text_id s : CR ∉ s → normalize_text s = s.
Proof.
  intros Hs. unfold normalize_text.
  by rewrite (replace_crlf_id s Hs), replace_cr_id.
Qed.

Lemma normalize_text_fixed s : normalize_text s = s ↔ CR ∉ s.
Proof.
  split; [|apply normalize_text_id].
  intros <-. apply normalize_text_no_CR.
Qed.

Lemma occurrences_cons c x s :
  occurrences c (x :: s) = ((if decide (x = c) then 1 else 0) + occurrences c s)%nat.
Proof. unfold occurrences. rewrite filter_cons. by destruct (decide (x = c)). Qed.

Lemma occurrences_app c s1 s2 :
  occurrences c (s1 ++ s2) = (occurrences c s1 + occurrences c s2)%nat.
Proof. unfold occurrences. by rewrite filter_app, length_app. Qed.

Lemma occurrences_zero c s : occurrences c s = 0%nat ↔ c ∉ s.
Proof.
  induction s as [|x s IH]; [by split; [intros _ ?%not_elem_of_nil|]|].
  rewrite occurrences_cons, not_elem_of_cons.
  destruct (decide (x = c)) as [->|Hx]; cbn [Nat.add].
  - split; [done|]. by intros [? _].
  - rewrite IH. split; [by split|by intros [_ ?]].
Qed.

(** The terminators of a text, one character at a time: a CR counts
    unless an LF follows it (that LF counts for the pair). *)
Lemma line_terminators_cons c s :
  line_terminators (c :: s) =
  ((if N.eqb c CR then (if startswith s [LF] then 0 else 1)
    else if N.eqb c LF then 1 else 0) + line_terminators s)%nat.
Proof.
  cbn [line_terminators startswith].
  destruct (c =? CR); [|by destruct (c =? LF)].
  destruct s as [|d s]; [done|]. cbn [line_terminators].
  rewrite (N.eqb_sym LF d).
  destruct (N.eqb_spec d LF) as [->|Hd]; [done|]. cbn.
  destruct (N.eqb_spec d CR) as [->|]; [|done]. done.
Qed.

Lemma normalize_text_cons_other c s :
  startswith (c :: s) [CR; LF] = false →
  normalize_text (c :: s) = (if c =? CR then LF else c) :: normalize_text s.
Proof.
  intros H. unfold normalize_text. rewrite replace_crlf_other by done.
  by rewrite !replace_cr_map.
Qed.

Lemma normalize_text_pair s :
  normalize_text (CR :: LF :: s) = LF :: normalize_text s.
Proof. unfold normalize_text. rewrite replace_crlf_pair. by rewrite !replace_cr_map. Qed.

(** Every terminator of the input is one LF of the output, and the output
    has no other LF. *)
Lemma normalize_text_terminators s :
  occurrences LF (normalize_text s) = line_terminators s.
Proof.
  induction s as [|s IH|c s Hc IH] using crlf_ind.
  - done.
  - rewrite normalize_text_pair, occurrences_cons, IH. done.
  - rewrite normalize_text_cons_other, occurrences_cons, IH by done.
    rewrite line_terminators_cons. f_equal.
    destruct (N.eqb_spec c CR) as [->|Hn].
    + rewrite decide_True by done.
      destruct s as [|d s]; [done|]. cbn in Hc |- *. by rewrite Hc.
    + destruct (N.eqb_spec c LF) as [->|Hl];
        [by rewrite decide_True|by rewrite decide_False].
Qed.

(** ** Properties of the codecs *)

Ltac to_props :=
  repeat match goal with
  | H : _ && _ = true |- _ => apply andb_true_iff in H as [? ?]
  | H : in_range _ _ _ = true |- _ => unfold in_range in H
  | H : (_ <=? _) = true |- _ => apply N.leb_le in H
  | H : (_ <? _) = true |- _ => apply N.ltb_lt in H
  | H : (_ <? _) = false |- _ => apply N.ltb_ge in H
  | H : (_ =? _) = true |- _ => apply N.eqb_eq in H
  | H : (_ =? _) = false |- _ => apply N.eqb_neq in H
  end.

Lemma to_N_byte_of_N n : n < 256 → Byte.to_N (byte_of_N n) = n.
Proof.
  intros Hn. unfold byte_of_N. destruct (Byte.of_N n) as [b|] eqn:E.
  - by apply Byte.to_of_N.
  - apply Byte.of_N_None_iff in E. lia.
Qed.

Lemma to_N_lt_256 b : Byte.to_N b < 256.
Proof. pose proof (Byte.to_N_bounded b). lia. Qed.

Lemma byte_of_N_to_N b : byte_of_N (Byte.to_N b) = b.
Proof. unfold byte_of_N. by rewrite Byte.of_to_N. Qed.

Lemma aligned_head_LF u t :
  ascii_aligned u t → startswith u [LF] = startswith t [LF].
Proof.
  destruct 1 as [|c u t Hc _|pre c u t Hne Hpre Hc _]; [done|done|].
  destruct pre as [|x pre]; [done|]. apply Forall_cons in Hpre as [Hx _].
  cbn [app startswith]. unfold LF in *.
  destruct (N.eqb_spec 10 x), (N.eqb_spec 10 c); try done; lia.
Qed.

Lemma line_terminators_high pre u :
  Forall (λ x, 0x80 ≤ x) pre →
  line_terminators (pre ++ u) = line_terminators u.
Proof.
  induction 1 as [|x pre Hx _ IH]; [done|].
  cbn [app]. rewrite line_terminators_cons, IH. unfold CR, LF.
  destruct (N.eqb_spec x 13); [lia|]. destruct (N.eqb_spec x 10); [lia|done].
Qed.

Lemma aligned_terminators u t :
  ascii_aligned u t → line_terminators u = line_terminators t.
Proof.
  induction 1 as [|c u t Hc Hut IH|pre c u t Hne Hpre Hc Hut IH]; [done|..].
  - by rewrite !line_terminators_cons, IH, (aligned_head_LF u t).
  - rewrite line_terminators_high, line_terminators_cons, IH by done.
    unfold CR, LF.
    destruct (N.eqb_spec c 13); [lia|]. destruct (N.eqb_spec c 10); [lia|done].
Qed.

Lemma aligned_occurrences a u t :
  a < 0x80 → ascii_aligned u t → occurrences a u = occurrences a t.
Proof.
  intros Ha. induction 1 as [|c u t Hc Hut IH|pre c u t Hne Hpre Hc Hut IH];
    [done|..].
  - by rewrite !occurrences_cons, IH.
  - rewrite occurrences_app, occurrences_cons, IH.
    rewrite decide_False by lia.
    replace (occurrences a pre) with 0%nat; [done|].
    symmetry. apply occurrences_zero. intros Hin.
    pose proof (proj1 (Forall_forall _ _) Hpre a Hin). cbn in *. lia.
Qed.

Lemma aligned_elem_of a u t :
  a < 0x80 → ascii_aligned u t → a ∈ u ↔ a ∈ t.
Proof.
  intros Ha Hut. pose proof (aligned_occurrences a u t Ha Hut) as E.
  split; intros Hin.
  - destruct (decide (a ∈ t)) as [|Hn]; [done|].
    apply occurrences_zero in Hn. rewrite <- E in Hn.
    by apply occurrences_zero in Hn.
  - destruct (decide (a ∈ u)) as [|Hn]; [done|].
    apply occurrences_zero in Hn. rewrite E in Hn.
    by apply occurrences_zero in Hn.
Qed.

Lemma aligned_refl s : ascii_aligned s s.
Proof.
  induction s as [|c s IH]; [constructor|].
  destruct (N.lt_ge_cases c 0x80); [by constructor|].
  by apply (aligned_multi [c]); [|constructor|..].
Qed.

(** What a successful UTF-8 decoding gives: a text of scalar values that
    agrees with the bytes on every ASCII position. *)
Lemma decode_utf8_inv bs t :
  decode_utf8 bs = Some t → ascii_aligned (values bs) t ∧ Forall scalar t.
Proof.
  remember (length bs) as n eqn:Hn. revert bs t Hn.
  induction n as [n IH] using lt_wf_ind. intros bs t Hn.
  assert (∀ r t', (length r < n)%nat → decode_utf8 r = Some t' →
            ascii_aligned (values r) t' ∧ Forall scalar t') as IH'
    by (intros r t' Hr; by apply (IH (length r))).
  clear IH. destruct bs as [|b0 r0]; cbn [decode_utf8].
  { intros [= <-]. split; constructor. }
  cbn [length] in Hn.
  pose proof (to_N_lt_256 b0) as Hb0. set (x0 := Byte.to_N b0) in *.
  assert (∀ (pre : bytes) (c : N) r,
            (length r < n)%nat → pre ≠ [] →
            Forall (λ x, 0x80 ≤ x) (values pre) → 0x80 ≤ c → scalar c →
            cons c <$> decode_utf8 r = Some t →
            ascii_aligned (values (pre ++ r)) t ∧ Forall scalar t) as Hmulti.
  { intros pre c r Hr Hne Hpre Hc Hsc Hdec.
    destruct (decode_utf8 r) as [t''|] eqn:E; [|done]. injection Hdec as <-.
    destruct (IH' r t'' Hr E) as [? ?]. split; [|by constructor].
    unfold values. rewrite fmap_app. apply aligned_multi; try done.
    by destruct pre. }
  destruct (x0 <? 0x80) eqn:H1.
  { to_props. destruct (decode_utf8 r0) as [t'|] eqn:E; [|done].
    intros [= <-]. destruct (IH' r0 t' ltac:(lia) E) as [? ?]. split.
    - cbn. by constructor.
    - constructor; [|done]. unfold scalar. lia. }
  destruct (x0 <? 0xC2) eqn:H2; [done|].
  destruct (x0 <? 0xE0) eqn:H3.
  { destruct r0 as [|b1 r1]; [done|].
    set (x1 := Byte.to_N b1). destruct (in_range 0x80 0xBF x1) eqn:H4; [|done].
    to_props. cbn [length] in Hn.
    apply (Hmulti [b0; b1]); try done; try lia.
    - repeat constructor; fold x0 x1; lia.
    - unfold scalar. lia. }
  destruct (x0 <? 0xF0) eqn:H4.
  { destruct r0 as [|b1 [|b2 r2]]; [done|done|].
    set (x1 := Byte.to_N b1). set (x2 := Byte.to_N b2).
    destruct (_ && _) eqn:H5; [|done]. cbn [length] in Hn.
    to_props.
    assert (0x80 ≤ x1) by (destruct (x0 =? 0xE0); lia).
    apply (Hmulti [b0; b1; b2]); try done; try lia.
    - repeat constructor; fold x0 x1 x2; lia.
    - destruct (N.eqb_spec x0 0xE0); lia.
    - unfold scalar.
      destruct (N.eqb_spec x0 0xE0), (N.eqb_spec x0 0xED); lia. }
  destruct (x0 <? 0xF5) eqn:H5; [|done].
  destruct r0 as [|b1 [|b2 [|b3 r3]]]; [done|done|done|].
  set (x1 := Byte.to_N b1). set (x2 := Byte.to_N b2). set (x3 := Byte.to_N b3).
  destruct (_ && _) eqn:H6; [|done]. cbn [length] in Hn.
  to_props.
  assert (0x80 ≤ x1) by (destruct (x0 =? 0xF0); lia).
  apply (Hmulti [b0; b1; b2; b3]); try done; try lia.
  - repeat constructor; fold x0 x1 x2 x3; lia.
  - destruct (N.eqb_spec x0 0xF0); lia.
  - unfold scalar.
    destruct (N.eqb_spec x0 0xF0), (N.eqb_spec x0 0xF4); lia.
Qed.

Lemma encode_utf8_char_inv c bs :
  encode_utf8_char c = Some bs →
  (c < 0x80 ∧ values bs = [c]) ∨
  (0x80 ≤ c ∧ bs ≠ [] ∧ Forall (λ x, 0x80 ≤ x) (values bs)).
Proof.
  unfold encode_utf8_char.
  assert (∀ n, n < 128 → 0x80 ≤ Byte.to_N (byte_of_N (128 + n))) as Hhi.
  { intros n Hn. rewrite to_N_byte_of_N; lia. }
  assert (∀ n, 0x80 ≤ Byte.to_N (byte_of_N (0x80 + n mod 64))) as Hcont.
  { intros n. apply Hhi. pose proof (N.mod_upper_bound n 64). lia. }
  destruct (c <? 0x80) eqn:H1.
  { to_props. intros [= <-]. left. split; [done|].
    cbn. rewrite to_N_byte_of_N; [done|lia]. }
  destruct (c <? 0x800) eqn:H2.
  { to_props. intros [= <-]. right. split; [done|]. split; [done|].
    repeat constructor; [|apply Hcont].
    change 0xC0 with (128 + 64). rewrite <- N.add_assoc. apply Hhi.
    assert (c / 64 < 32) by (apply N.Div0.div_lt_upper_bound; lia). lia. }
  destruct (c <? 0x10000) eqn:H3.
  { destruct (in_range 0xD800 0xDFFF c); [done|].
    to_props. intros [= <-]. right. split; [done|]. split; [done|].
    repeat constructor; [|apply Hcont..].
    change 0xE0 with (128 + 96). rewrite <- N.add_assoc. apply Hhi.
    assert (c / 4096 < 16) by (apply N.Div0.div_lt_upper_bound; lia). lia. }
  destruct (c <? 0x110000) eqn:H4; [|done].
  to_props. intros [= <-]. right. split; [lia|]. split; [done|].
  repeat constructor; [|apply Hcont..].
  change 0xF0 with (128 + 112). rewrite <- N.add_assoc. apply Hhi.
  assert (c / 262144 < 5) by (apply N.Div0.div_lt_upper_bound; lia). lia.
Qed.

Lemma encode_utf8_char_scalar c : scalar c → is_Some (encode_utf8_char c).
Proof.
  intros [Hlt Hsur]. unfold encode_utf8_char.
  destruct (c <? 0x80); [done|]. destruct (c <? 0x800); [done|].
  destruct (c <? 0x10000).
  - unfold in_range.
    destruct (N.leb_spec 0xD800 c), (N.leb_spec c 0xDFFF); cbn; try done.
    exfalso. apply Hsur. lia.
  - destruct (N.ltb_spec c 0x110000); [done|lia].
Qed.

Lemma encode_utf8_is_Some t : Forall scalar t → is_Some (encode_utf8 t).
Proof.
  induction 1 as [|c t Hc _ [bs IH]]; [done|]. cbn [encode_utf8].
  destruct (encode_utf8_char_scalar c Hc) as [b ->]. by rewrite IH.
Qed.

Lemma encode_utf8_aligned t bs :
  encode_utf8 t = Some bs → ascii_aligned (values bs) t.
Proof.
  revert bs. induction t as [|c t IH]; intros bs; cbn [encode_utf8].
  { intros [= <-]. constructor. }
  destruct (encode_utf8_char c) as [b|] eqn:Ec; [|done].
  destruct (encode_utf8 t) as [r|]; [|done]. intros [= <-].
  unfold values. rewrite fmap_app.
  destruct (encode_utf8_char_inv c b Ec) as [[Hc Hb]|(Hc & Hne & Hb)].
  - unfold values in Hb. rewrite Hb. constructor; [done|by apply IH].
  - apply aligned_multi; [by destruct b|done|done|by apply IH].
Qed.


Lemma normalize_text_Forall (P : N → Prop) t :
  P LF → Forall P t → Forall P (normalize_text t).
Proof.
  intros HLF. unfold normalize_text. rewrite replace_cr_map. intros Ht.
  apply Forall_fmap.
  induction t as [|s IH|c s Hc IH] using crlf_ind.
  - constructor.
  - rewrite replace_crlf_pair. apply Forall_cons in Ht as [_ [_ Ht]%Forall_cons].
    constructor; [done|by apply IH].
  - rewrite replace_crlf_other by done. apply Forall_cons in Ht as [? Ht].
    constructor; [|by apply IH]. cbn. by destruct (c =? CR).
Qed.

Lemma normalize_text_scalar t : Forall scalar t → Forall scalar (normalize_text t).
Proof. apply normalize_text_Forall. unfold scalar, LF. lia. Qed.

Lemma values_scalar bs : Forall scalar (values bs).
Proof.
  apply Forall_fmap, Forall_forall. intros b _. cbn.
  pose proof (to_N_lt_256 b). unfold scalar. lia.
Qed.

(** The text the normaliser works on is the bytes' own on the ASCII
    positions, whichever codec read them, and can always be re-encoded. *)
Lemma decoded_aligned bs : ascii_aligned (values bs) (decoded bs).
Proof.
  unfold decoded. destruct (decode_utf8 bs) as [t|] eqn:E.
  - by apply decode_utf8_inv.
  - apply aligned_refl.
Qed.

Lemma decoded_scalar bs : Forall scalar (decoded bs).
Proof.
  unfold decoded. destruct (decode_utf8 bs) as [t|] eqn:E.
  - by apply decode_utf8_inv in E as [_ ?].
  - apply values_scalar.
Qed.

(** ** Properties of the file system *)

Lemma node_ind' (P : node → Prop) :
  (∀ f, P (NFile f)) →
  (∀ es, Forall (λ e, P e.2) es → P (NDir es)) →
  ∀ n, P n.
Proof.
  intros Hfile Hdir. fix IH 1. intros [f|es]; [apply Hfile|].
  apply Hdir. induction es as [|[k n] es IHes]; constructor; [apply IH|done].
Qed.

Lemma assoc_set_entry k c g es n' :
  assoc c es = Some n' →
  assoc k (set_entry c g es) =
  if decide (k = c) then Some (default n' (g (Some n'))) else assoc k es.
Proof.
  induction es as [|[k' v] es IH]; [done|]. cbn [assoc set_entry].
  destruct (decide (c = k')) as [->|Hc].
  - intros [= ->]. cbn [assoc]. by destruct (decide (k = k')).
  - intros H. cbn [assoc]. rewrite (IH H).
    destruct (decide (k = k')) as [->|]; [|done]. by rewrite decide_False.
Qed.

Lemma lookup_path_cons n c p :
  lookup_path n (c :: p) =
  match n with
  | NDir es => assoc c es ≫= λ n', lookup_path n' p
  | NFile _ => None
  end.
Proof. destruct n as [|es]; [done|]. cbn. by destruct (assoc c es). Qed.

Lemma lookup_path_app n p q :
  lookup_path n (p ++ q) = lookup_path n p ≫= λ m, lookup_path m q.
Proof.
  revert n. induction p as [|c p IH]; intros n; [done|].
  cbn [app]. rewrite !lookup_path_cons. destruct n as [|es]; [done|].
  destruct (assoc c es); [apply IH|done].
Qed.

(** Storing over an existing regular file: the file is replaced... *)
Lemma lookup_store_eq n p f0 f :
  lookup_path n p = Some (NFile f0) →
  lookup_path (store_file n p f) p = Some (NFile f).
Proof.
  revert n. induction p as [|c p IH]; intros n.
  - cbn. by intros [= ->].
  - rewrite lookup_path_cons. destruct n as [|es]; [done|].
    destruct (assoc c es) as [n'|] eqn:E; [|done]. cbn [mbind option_bind].
    intros H. cbn [store_file]. rewrite lookup_path_cons.
    rewrite (assoc_set_entry _ _ _ _ _ E), decide_True by done.
    cbn. by apply IH.
Qed.

(** ... and nothing else is touched: every path that is not on the way to
    the file answers as before. *)
Lemma lookup_store_ne n p q f0 f :
  lookup_path n p = Some (NFile f0) →
  ¬ q `prefix_of` p →
  lookup_path (store_file n p f) q = lookup_path n q.
Proof.
  revert n q. induction p as [|c p IH]; intros n q.
  - cbn. intros [= ->] Hq. destruct q as [|k q]; [|done].
    destruct Hq. apply prefix_nil.
  - rewrite lookup_path_cons. destruct n as [|es]; [done|].
    destruct (assoc c es) as [n'|] eqn:E; [|done]. cbn [mbind option_bind].
    intros H Hq. destruct q as [|k q]; [destruct Hq; apply prefix_nil|].
    cbn [store_file]. rewrite !lookup_path_cons.
    rewrite (assoc_set_entry _ _ _ _ _ E).
    destruct (decide (k = c)) as [->|Hk]; [|done].
    rewrite E. cbn. apply (IH _ _ H). intros Hp. apply Hq.
    by apply prefix_cons.
Qed.

Lemma file_at_store_eq n p f0 f :
  file_at n p = Some f0 → file_at (store_file n p f) p = Some f.
Proof.
  unfold file_at. destruct (lookup_path n p) as [[g|]|] eqn:E; try done.
  intros _. by rewrite (lookup_store_eq _ _ _ _ E).
Qed.

Lemma file_at_store_ne n p q f0 f :
  file_at n p = Some f0 → q ≠ p →
  file_at (store_file n p f) q = file_at n q.
Proof.
  unfold file_at at 1. destruct (lookup_path n p) as [[g|]|] eqn:E; try done.
  intros _ Hq. destruct (decide (q `prefix_of` p)) as [[r ->]|Hpre].
  - unfold file_at. rewrite lookup_path_app in E.
    destruct (lookup_path n q) as [m|] eqn:Em; [|done]. cbn in E.
    assert (r ≠ []) as Hr by (intros ->; by rewrite app_nil_r in Hq).
    destruct r as [|c r]; [done|]. rewrite lookup_path_cons in E.
    destruct m as [|es]; [done|].
    pose proof (lookup_store_eq n (q ++ c :: r) g f) as Hs.
    rewrite lookup_path_app, Em in Hs. specialize (Hs E).
    rewrite lookup_path_app in Hs.
    destruct (lookup_path (store_file n (q ++ c :: r) f) q) as [[|]|]; done.
  - unfold file_at. by rewrite (lookup_store_ne _ _ _ _ _ E).
Qed.

Lemma store_store n p f0 f1 f2 :
  lookup_path n p = Some (NFile f0) →
  store_file (store_file n p f1) p f2 = store_file n p f2.
Proof.
  revert n. induction p as [|c p IH]; intros n.
  - cbn. by intros [= ->].
  - rewrite lookup_path_cons. destruct n as [|es]; [done|].
    destruct (assoc c es) as [n'|] eqn:E; [|done]. cbn [mbind option_bind].
    intros H. cbn [store_file]. f_equal.
    induction es as [|[k v] es IHes]; [done|]. cbn [assoc] in E.
    cbn [set_entry]. destruct (decide (c = k)) as [->|Hc].
    + injection E as ->. cbn [set_entry]. rewrite decide_True by done.
      cbn. by rewrite IH.
    + cbn [set_entry]. rewrite decide_False by done. f_equal. by apply IHes.
Qed.

(** ** normalize_line_endings, case by case *)

Lemma normalize_line_endings_eq p w :
  normalize_line_endings p w =
  match lookup_path (fs w) p with
  | None => reported p FileNotFoundError w
  | Some (NDir _) => reported p IsADirectoryError w
  | Some (NFile f) =>
      if f_readable f then
        if bool_decide (CR ∈ decoded (f_content f)) then
          if f_writable f
          then (inr true,
                World (store_file (fs w) p (rewritten_file f)) (stdout w))
          else reported p PermissionError w
        else (inr false, w)
      else reported p PermissionError w
  end.
Proof.
  unfold normalize_line_endings, try_except, normalize_body.
  unfold mbind, M_bind, read_rb.
  destruct (lookup_path (fs w) p) as [[f|es]|] eqn:E; [|done|done].
  destruct (f_readable f) eqn:Hr; [|done].
  assert (match decode_utf8 (f_content f) with
          | Some text => Some text
          | None => decode_latin1 (f_content f)
          end = Some (decoded (f_content f))) as ->.
  { unfold decoded, decode_latin1. by destruct (decode_utf8 _). }
  set (t := decoded (f_content f)).
  change (str_replace [CR] [LF] (str_replace [CR; LF] [LF] t))
    with (normalize_text t).
  destruct (decide (CR ∈ t)) as [Hcr|Hcr].
  - rewrite (bool_decide_eq_true_2 (CR ∈ t)) by done.
    rewrite bool_decide_eq_true_2
      by (intros Heq; by apply normalize_text_fixed in Heq).
    unfold open_wb. rewrite E. destruct (f_writable f) eqn:Hw; [|done].
    destruct (encode_utf8_is_Some (normalize_text t)) as [data Hdata].
    { apply normalize_text_scalar, decoded_scalar. }
    rewrite Hdata. cbn [of_option mret M_ret].
    unfold f_write. cbn [fs stdout].
    rewrite (file_at_store_eq _ _ f) by (unfold file_at; by rewrite E).
    cbn [f_readable f_writable f_mtime]. rewrite (store_store _ _ f) by done.
    unfold rewritten_file. fold t. by rewrite Hdata, Hw.
  - rewrite (bool_decide_eq_false_2 (CR ∈ t)) by done.
    rewrite bool_decide_eq_false_2; [done|].
    intros Hne. apply Hne. by apply normalize_text_id.
Qed.

(** ** File selection *)

Lemma name_snoc root filename : name (root ++ [filename]) = filename.
Proof. unfold name. by rewrite last_snoc. Qed.

Lemma suffix_snoc root filename : suffix (root ++ [filename]) = suffix [filename].
Proof. unfold suffix. by rewrite name_snoc. Qed.

Lemma should_process_file_snoc ul root filename :
  should_process_file ul (root ++ [filename]) = should_process_file ul [filename].
Proof. unfold should_process_file. by rewrite suffix_snoc, name_snoc. Qed.

Lemma elem_of_DOTFILES nm :
  nm ∈ DOTFILES ↔
  nm = lit ".env" ∨ nm = lit ".gitignore" ∨ nm = lit ".gitattributes".
Proof.
  unfold DOTFILES. rewrite elem_of_list_to_set, !fmap_cons, !elem_of_cons.
  rewrite fmap_nil, elem_of_nil. tauto.
Qed.


(** ** One call of normalize_line_endings *)

Lemma file_at_lookup n p f : file_at n p = Some f → lookup_path n p = Some (NFile f).
Proof.
  unfold file_at. destruct (lookup_path n p) as [[g|]|]; try done.
  by intros [= ->].
Qed.

Lemma decoded_CR bs : CR ∈ decoded bs ↔ CR ∈ values bs.
Proof.
  symmetry. apply aligned_elem_of; [unfold CR; lia|apply decoded_aligned].
Qed.

Lemma rewritten_file_content f :
  encode_utf8 (normalize_text (decoded (f_content f)))
  = Some (f_content (rewritten_file f)).
Proof.
  destruct (encode_utf8_is_Some (normalize_text (decoded (f_content f))))
    as [data Hdata]; [apply normalize_text_scalar, decoded_scalar|].
  unfold rewritten_file. cbn [f_content]. by rewrite Hdata.
Qed.

(** The loop body, case by case. *)
Lemma visit_eq ul start_dir root counts filename w :
  visit ul start_dir root counts filename w =
  if should_process_file ul (root ++ [filename]) then
    match relative_to (root ++ [filename]) start_dir with
    | None => (inl ValueError, w)
    | Some rel =>
        match normalize_line_endings (root ++ [filename]) w with
        | (inr true, w') =>
            (inr ((counts.1 + 1)%Z, (counts.2 + 1)%Z),
             World (fs w') (stdout w' ++ [Normalized rel]))
        | (inr false, w') => (inr ((counts.1 + 1)%Z, counts.2), w')
        | (inl e, w') => (inl e, w')
        end
    end
  else (inr counts, w).
Proof.
  unfold visit. destruct (should_process_file _ _); [|done].
  unfold mbind, M_bind.
  destruct (relative_to _ _) as [rel|]; [|done]. cbn [of_option mret M_ret].
  by destruct (normalize_line_endings _ w) as [[e|[|]] w'].
Qed.

Lemma normalize_line_endings_returns p w :
  ∃ b, (normalize_line_endings p w).1 = inr b.
Proof.
  rewrite normalize_line_endings_eq.
  destruct (lookup_path (fs w) p) as [[f|]|]; [|by eexists..].
  destruct (f_readable f); [|by eexists].
  destruct (bool_decide _); [|by eexists].
  destruct (f_writable f); by eexists.
Qed.

Lemma normalize_line_endings_rewrites p w f :
  file_at (fs w) p = Some f →
  f_readable f = true →
  f_writable f = true →
  CR ∈ values (f_content f) →
  normalize_line_endings p w
  = (inr true, World (store_file (fs w) p (rewritten_file f)) (stdout w))
  ∧ file_at (store_file (fs w) p (rewritten_file f)) p
    = Some (rewritten_file f).
Proof.
  intros Hf Hr Hw Hcr. split.
  - rewrite normalize_line_endings_eq, (file_at_lookup _ _ _ Hf), Hr, Hw.
    by rewrite bool_decide_eq_true_2 by by apply decoded_CR.
  - by apply (file_at_store_eq _ _ f).
Qed.

(** C1.  A readable and writable file whose bytes contain a CR is
    rewritten: the call returns True, the new bytes are the UTF-8 form of
    the text with every CR LF replaced by LF first and every remaining CR
    by LF next, they contain no CR byte, and they have exactly one LF for
    each terminator (CR LF, lone CR or LF) of the old bytes.  The bytes
    b"a\r\nb\rc\n" become b"a\nb\nc\n". *)
Theorem normalize_line_endings_converts p w f :
  file_at (fs w) p = Some f →
  f_readable f = true →
  f_writable f = true →
  CR ∈ values (f_content f) →
  ∃ f',
    normalize_line_endings p w
    = (inr true, World (store_file (fs w) p f') (stdout w))
    ∧ file_at (store_file (fs w) p f') p = Some f'
    ∧ encode_utf8
        (str_replace [CR] [LF]
           (str_replace [CR; LF] [LF] (decoded (f_content f))))
      = Some (f_content f')
    ∧ (CR ∉ values (f_content f'))
    ∧ occurrences LF (values (f_content f'))
      = line_terminators (values (f_content f))
    ∧ (f_content f = example_input → f_content f' = example_output).
Proof.
  intros Hf Hr Hw Hcr. exists (rewritten_file f).
  pose proof (rewritten_file_content f) as Henc.
  pose proof (encode_utf8_aligned _ _ Henc) as Hal.
  destruct (normalize_line_endings_rewrites p w f Hf Hr Hw Hcr) as [Hrun Hat].
  split; [|split; [|split; [|split; [|split]]]].
  - exact Hrun.
  - exact Hat.
  - exact Henc.
  - intros Hin. apply (aligned_elem_of CR _ _ ltac:(unfold CR; lia) Hal) in Hin.
    by apply normalize_text_no_CR in Hin.
  - rewrite (aligned_occurrences LF _ _ ltac:(unfold LF; lia) Hal).
    rewrite normalize_text_terminators. symmetry.
    apply aligned_terminators, decoded_aligned.
  - intros Hex. rewrite Hex in Henc. vm_compute in Henc. by injection Henc.
Qed.

(** C5.  A file whose decoded text has no CR (as is the case of any file
    whose bytes have no CR, LF-only files among them) is not written: the
    call returns False and leaves the file system as it was, the
    modification stamp included; a readable one leaves the whole world as
    it was.  The loop body then leaves [changed_count] as it was. *)
Theorem normalize_line_endings_no_CR p w f :
  file_at (fs w) p = Some f →
  CR ∉ decoded (f_content f) →
  (normalize_line_endings p w).1 = inr false
  ∧ fs (normalize_line_endings p w).2 = fs w
  ∧ (f_readable f = true → normalize_line_endings p w = (inr false, w))
  ∧ (CR ∉ values (f_content f) ↔ CR ∉ decoded (f_content f))
  ∧ (∀ ul start_dir root filename counts counts' w',
       p = root ++ [filename] →
       visit ul start_dir root counts filename w = (inr counts', w') →
       counts'.2 = counts.2).
Proof.
  intros Hf Hcr.
  assert (normalize_line_endings p w
          = if f_readable f then (inr false, w)
            else reported p PermissionError w) as Heq.
  { rewrite normalize_line_endings_eq, (file_at_lookup _ _ _ Hf).
    by rewrite bool_decide_eq_false_2. }
  split; [|split; [|split; [|split]]].
  - rewrite Heq. by destruct (f_readable f).
  - rewrite Heq. by destruct (f_readable f).
  - intros Hr. by rewrite Heq, Hr.
  - by rewrite decoded_CR.
  - intros ul start_dir root filename counts counts' w' -> Hv.
    rewrite visit_eq in Hv. destruct (should_process_file _ _).
    + destruct (relative_to _ _); [|done]. rewrite Heq in Hv.
      destruct (f_readable f); by injection Hv as <- _.
    + by injection Hv as <- _.
Qed.



(** C10.  Decoding with latin-1 succeeds on every byte string, so the
    branch that prints the encoding-issue warning is never taken: a call
    of [normalize_line_endings] prints either nothing or one error line,
    and an encoding-issue line found on the output afterwards was there
    before the call. *)
Theorem encoding_issue_branch_unreachable :
  (∀ content, ∃ text, decode_latin1 content = Some text)
  ∧ (∀ p w,
       stdout (normalize_line_endings p w).2 = stdout w
       ∨ ∃ e, stdout (normalize_line_endings p w).2
              = stdout w ++ [ErrorProcessing p e])
  ∧ (∀ p w q,
       SkippingEncodingIssue q ∈ stdout (normalize_line_endings p w).2 →
       SkippingEncodingIssue q ∈ stdout w).
Proof.
  assert (∀ p w,
       stdout (normalize_line_endings p w).2 = stdout w
       ∨ ∃ e, stdout (normalize_line_endings p w).2
              = stdout w ++ [ErrorProcessing p e]) as Hout.
  { intros p w. rewrite normalize_line_endings_eq. unfold reported.
    destruct (lookup_path (fs w) p) as [[f|]|]; [|right; by eexists..].
    destruct (f_readable f); [|right; by eexists].
    destruct (bool_decide _); [|by left].
    destruct (f_writable f); [by left|right; by eexists]. }
  split; [by eexists|]. split; [done|].
  intros p w q. destruct (Hout p w) as [->|[e ->]]; [done|].
  rewrite elem_of_app, list_elem_of_singleton. by intros [?|?].
Qed.

Lemma crlf_pairs_other c s :
  startswith (c :: s) [CR; LF] = false → crlf_pairs (c :: s) = crlf_pairs s.
Proof.
  cbn [crlf_pairs startswith]. rewrite (N.eqb_sym CR c).
  destruct (c =? CR); [|done]. cbn [andb].
  destruct s as [|d s]; [done|]. by intros ->.
Qed.

Lemma normalize_text_length t :
  (length (normalize_text t) + crlf_pairs t = length t)%nat.
Proof.
  induction t as [|s IH|c s Hc IH] using crlf_ind.
  - done.
  - rewrite normalize_text_pair. cbn [length]. 
    change (crlf_pairs (CR :: LF :: s)) with (S (crlf_pairs s)). lia.
  - rewrite normalize_text_cons_other, crlf_pairs_other by done.
    cbn [length]. lia.
Qed.

Lemma non_ascii_cons c s :
  non_ascii (c :: s)
  = ((if decide (N.le 0x80 c) then 1 else 0) + non_ascii s)%nat.
Proof. unfold non_ascii. rewrite filter_cons. by destruct (decide _). Qed.

Lemma normalize_text_non_ascii t : non_ascii (normalize_text t) = non_ascii t.
Proof.
  induction t as [|s IH|c s Hc IH] using crlf_ind.
  - done.
  - rewrite normalize_text_pair, !non_ascii_cons, IH. unfold CR, LF.
    by rewrite !decide_False by lia.
  - rewrite normalize_text_cons_other, !non_ascii_cons, IH by done.
    destruct (N.eqb_spec c CR) as [->|]; [|done]. unfold CR, LF.
    by rewrite !decide_False by lia.
Qed.

Lemma encode_utf8_latin1 t :
  Forall (λ c, c < 256) t →
  encode_utf8 t = Some (concat (latin1_as_utf8 <$> t)).
Proof.
  induction 1 as [|c t Hc _ IH]; [done|]. cbn [encode_utf8]. rewrite IH.
  rewrite fmap_cons. cbn [concat]. unfold encode_utf8_char, latin1_as_utf8.
  destruct (c <? 0x80); [done|].
  by destruct (N.ltb_spec c 0x800); [|lia].
Qed.

Lemma latin1_as_utf8_length t :
  length (concat (latin1_as_utf8 <$> t)) = (length t + non_ascii t)%nat.
Proof.
  induction t as [|c t IH]; [done|].
  rewrite fmap_cons, non_ascii_cons. cbn [concat length].
  rewrite length_app, IH. unfold latin1_as_utf8.
  destruct (N.ltb_spec c 0x80).
  - rewrite decide_False by lia. cbn [length]. lia.
  - rewrite decide_True by lia. cbn [length]. lia.
Qed.

(** Bytes that are not UTF-8 have a byte from 128 up. *)
Lemma decode_utf8_None_non_ascii bs :
  decode_utf8 bs = None → (0 < non_ascii (values bs))%nat.
Proof.
  induction bs as [|b bs IH]; [done|]. cbn [decode_utf8].
  unfold values. rewrite fmap_cons, non_ascii_cons.
  destruct (N.ltb_spec (Byte.to_N b) 0x80).
  - rewrite decide_False by lia. destruct (decode_utf8 bs); [done|].
    intros _. by apply IH.
  - rewrite decide_True by lia. lia.
Qed.

(** C6.  When the bytes of a file are not UTF-8, the text is their
    latin-1 reading, and a rewrite stores the UTF-8 form of the normalised
    text: each character below 128 is one byte and each byte from 128 up
    of the original has become two bytes.  Such a file has at least one
    such byte, so bytes other than terminators do change, and the new
    length is the old one, less one per CR LF pair, plus one per byte from
    128 up: it exceeds the old length when those bytes outnumber the
    pairs. *)
Theorem latin1_fallback_rewrites_as_utf8 p w f :
  file_at (fs w) p = Some f →
  f_readable f = true →
  f_writable f = true →
  decode_utf8 (f_content f) = None →
  CR ∈ values (f_content f) →
  ∃ f',
    normalize_line_endings p w
    = (inr true, World (store_file (fs w) p f') (stdout w))
    ∧ file_at (store_file (fs w) p f') p = Some f'
    ∧ decoded (f_content f) = values (f_content f)
    ∧ encode_utf8 (normalize_text (values (f_content f)))
      = Some (f_content f')
    ∧ f_content f'
      = concat (latin1_as_utf8 <$> normalize_text (values (f_content f)))
    ∧ (0 < non_ascii (values (f_content f)))%nat
    ∧ (length (f_content f') + crlf_pairs (values (f_content f))
       = length (f_content f) + non_ascii (values (f_content f)))%nat
    ∧ (crlf_pairs (values (f_content f)) < non_ascii (values (f_content f))
       → length (f_content f) < length (f_content f'))%nat.
Proof.
  intros Hf Hr Hw Hdec Hcr.
  destruct (normalize_line_endings_rewrites p w f Hf Hr Hw Hcr) as [Hrun Hat].
  pose proof (rewritten_file_content f) as Henc.
  set (f' := rewritten_file f) in *.
  assert (decoded (f_content f) = values (f_content f)) as Hlatin
    by (unfold decoded; by rewrite Hdec).
  rewrite Hlatin in Henc.
  assert (f_content f'
          = concat (latin1_as_utf8 <$> normalize_text (values (f_content f))))
    as Hcontent.
  { rewrite encode_utf8_latin1 in Henc; [by injection Henc|].
    apply normalize_text_Forall; [unfold LF; lia|].
    apply Forall_fmap, Forall_forall. intros b _. apply to_N_lt_256. }
  assert (length (f_content f') + crlf_pairs (values (f_content f))
          = length (f_content f) + non_ascii (values (f_content f)))%nat
    as Hlen.
  { rewrite Hcontent, latin1_as_utf8_length, normalize_text_non_ascii.
    pose proof (normalize_text_length (values (f_content f))) as Hn.
    unfold values in Hn at 3. rewrite length_fmap in Hn. lia. }
  exists f'. repeat split; try done.
  - by apply decode_utf8_None_non_ascii.
  - lia.
Qed.

(** ** The walk *)

Lemma for_each_app {A S} (body : S → A → M S) s l1 l2 w :
  for_each body s (l1 ++ l2) w
  = (s' ← for_each body s l1; for_each body s' l2) w.
Proof.
  revert s w. induction l1 as [|a l1 IH]; intros s w; [done|].
  cbn [app for_each]. unfold mbind, M_bind.
  destruct (body s a w) as [[e|s'] w']; [done|]. apply IH.
Qed.

Lemma visit_visit_path ul start_dir root counts filename :
  visit ul start_dir root counts filename
  = visit_path ul start_dir counts (root ++ [filename]).
Proof. unfold visit_path. by rewrite removelast_last, name_snoc. Qed.

Lemma for_each_visit ul start_dir root counts files w :
  for_each (visit ul start_dir root) counts files w
  = for_each (visit_path ul start_dir) counts ((λ f, root ++ [f]) <$> files) w.
Proof.
  revert counts w. induction files as [|f files IH]; intros counts w; [done|].
  rewrite fmap_cons. cbn [for_each]. unfold mbind, M_bind.
  rewrite visit_visit_path.
  destruct (visit_path _ _ _ _ w) as [[e|s'] w']; [done|]. apply IH.
Qed.

(** The loop over the generator of a tree is the loop body run over the
    files of [tree_files], followed by the loop over the rest. *)
Lemma assoc_children {B} (F : str → node → B) d es :
  assoc d (children F es) = F d <$> assoc d es.
Proof.
  induction es as [|[k c] es IH]; [done|]. cbn [children assoc].
  by destruct (decide (d = k)) as [->|].
Qed.

Lemma assoc_elem_of {A} d (es : list (str * A)) c :
  assoc d es = Some c → (d, c) ∈ es.
Proof.
  induction es as [|[k v] es IH]; [done|]. cbn [assoc].
  destruct (decide (d = k)) as [->|]; [intros [= ->]; left|].
  intros H. right. by apply IH.
Qed.

Lemma walk_loop_os_walk ul start_dir n :
  ∀ top rest counts w,
    walk_loop ul start_dir (os_walk top n rest) counts w
    = (counts' ← for_each (visit_path ul start_dir) counts (tree_files top n);
       walk_loop ul start_dir rest counts') w.
Proof.
  induction n as [f|es IH] using node_ind'; intros top rest counts w.
  { by cbn. }
  cbn [os_walk tree_files walk_loop].
  set (dirs := filter (λ d, d ∉ EXCLUDED_DIRS) _).
  unfold mbind, M_bind. rewrite for_each_app. unfold mbind, M_bind.
  rewrite for_each_visit.
  destruct (for_each _ counts _ w) as [[e|counts1] w1]; [done|].
  revert counts1 w1. generalize dirs. clear dirs.
  induction dirs as [|d dirs IHd]; intros counts1 w1; [done|].
  rewrite fmap_cons. cbn [foldr concat]. rewrite !assoc_children.
  destruct (assoc d es) as [c|] eqn:E; cbn [fmap option_fmap option_map default].
  - apply assoc_elem_of in E.
    pose proof (proj1 (Forall_forall _ _) IH _ E) as Hc. cbn [snd] in Hc.
    rewrite Hc. unfold mbind, M_bind. rewrite for_each_app.
    unfold mbind, M_bind.
    destruct (for_each _ counts1 _ w1) as [[e|counts2] w2]; [done|].
    apply IHd.
  - apply IHd.
Qed.

Lemma tree_files_dir top es :
  tree_files top (NDir es)
  = ((λ f, top ++ [f]) <$> (fst <$> filter (λ e, is_dir e.2 = false) es))
    ++ concat ((λ d, default [] (tree_files (top ++ [d]) <$> assoc d es))
                 <$> filter (λ d, d ∉ EXCLUDED_DIRS)
                       (fst <$> filter (λ e, is_dir e.2 = true) es)).
Proof.
  cbn [tree_files]. f_equal. f_equal. apply list_fmap_ext. intros _ d _.
  by rewrite assoc_children.
Qed.

Lemma elem_of_concat {A} (x : A) (ls : list (list A)) :
  x ∈ concat ls ↔ ∃ l, x ∈ l ∧ l ∈ ls.
Proof.
  induction ls as [|l ls IH]; cbn [concat].
  - split; [by intros ?%elem_of_nil|]. by intros (l & _ & ?%elem_of_nil).
  - rewrite elem_of_app, IH. split.
    + intros [?|(l' & ? & ?)]; [exists l; split; [done|left]|].
      exists l'. split; [done|by right].
    + intros (l' & Hx & [->|?]%elem_of_cons); [by left|right; by exists l'].
Qed.

(** Every path the loop goes through lies below [top], and none of the
    directories between [top] and the file has an excluded name. *)
Lemma tree_files_inv n :
  ∀ top p, p ∈ tree_files top n →
    ∃ ds f, p = top ++ ds ++ [f] ∧ Forall (λ d, d ∉ EXCLUDED_DIRS) ds.
Proof.
  induction n as [f|es IH] using node_ind'; intros top p.
  { by intros ?%elem_of_nil. }
  rewrite tree_files_dir, elem_of_app. intros [Hp|Hp].
  - apply list_elem_of_fmap in Hp as (f & -> & _). by exists [], f.
  - apply elem_of_concat in Hp as (l & Hp & Hl).
    apply list_elem_of_fmap in Hl as (d & -> & Hd).
    apply list_elem_of_filter in Hd as [Hd _].
    destruct (assoc d es) as [c|] eqn:E; [|by apply elem_of_nil in Hp].
    cbn in Hp. apply assoc_elem_of in E.
    pose proof (proj1 (Forall_forall _ _) IH _ E) as IHc. cbn in IHc.
    destruct (IHc _ _ Hp) as (ds & f & -> & Hds).
    exists (d :: ds), f. split; [by rewrite <- app_assoc|by constructor].
Qed.

Lemma is_dir_store n p f0 f :
  lookup_path n p = Some (NFile f0) → is_dir (store_file n p f) = is_dir n.
Proof.
  destruct p as [|c p]; [cbn; by intros [= ->]|].
  rewrite lookup_path_cons. by destruct n.
Qed.

Lemma filter_set_entry c g es n' b :
  assoc c es = Some n' →
  is_dir (default n' (g (Some n'))) = is_dir n' →
  (filter (λ e, is_dir e.2 = b) (set_entry c g es)).*1
  = (filter (λ e, is_dir e.2 = b) es).*1.
Proof.
  intros E Hg. induction es as [|[k v] es IH]; [done|].
  cbn [assoc set_entry] in *. destruct (decide (c = k)) as [->|].
  - injection E as ->. rewrite !filter_cons. cbn [snd]. rewrite Hg.
    by destruct (decide (is_dir n' = b)).
  - rewrite !filter_cons. cbn [snd].
    destruct (decide (is_dir v = b)); [rewrite !fmap_cons; f_equal|];
      by apply IH.
Qed.


(** Overwriting a regular file leaves the generator of the walk as it
    was: the walk made when the loop starts is the walk Python makes
    directory by directory while the loop rewrites files. *)
Lemma os_walk_store p :
  ∀ n f0 f top,
    lookup_path n p = Some (NFile f0) →
    os_walk top (store_file n p f) = os_walk top n.
Proof.
  induction p as [|c p IH]; intros n f0 f top.
  { cbn. by intros [= ->]. }
  rewrite lookup_path_cons. destruct n as [|es]; [done|].
  destruct (assoc c es) as [n'|] eqn:E; [|done]. cbn [mbind option_bind].
  intros H. cbn [store_file os_walk].
  rewrite !(filter_set_entry _ _ _ _ _ E)
    by (cbn; by apply (is_dir_store _ _ f0)).
  match goal with
  | |- context [children ?F (set_entry c ?g es)] =>
      assert (children F (set_entry c g es) = children F es) as ->; [|done]
  end.
  clear -E H IH. induction es as [|[k v] es IHes]; [done|].
  cbn [assoc set_entry] in *. destruct (decide (c = k)) as [->|].
  - injection E as ->. cbn [children default id]. by rewrite (IH _ f0).
  - cbn [children]. f_equal. by apply IHes.
Qed.

Lemma lookup_store_prefix q :
  ∀ n r f0 f,
    lookup_path n (q ++ r) = Some (NFile f0) →
    ∃ m, lookup_path n q = Some m
         ∧ lookup_path m r = Some (NFile f0)
         ∧ lookup_path (store_file n (q ++ r) f) q = Some (store_file m r f).
Proof.
  induction q as [|c q IH]; intros n r f0 f.
  { intros H. by exists n. }
  cbn [app]. rewrite lookup_path_cons. destruct n as [|es]; [done|].
  destruct (assoc c es) as [n'|] eqn:E; [|done]. cbn [mbind option_bind].
  intros H. destruct (IH _ _ _ f H) as (m & H1 & H2 & H3).
  exists m. rewrite lookup_path_cons, E. cbn [mbind option_bind].
  split; [done|]. split; [done|]. cbn [store_file].
  rewrite lookup_path_cons, (assoc_set_entry _ _ _ _ _ E).
  by rewrite decide_True.
Qed.




Lemma rewritten_trans P n1 n2 n3 :
  rewritten P n1 n2 → rewritten P n2 n3 → rewritten P n1 n3.
Proof. induction 1; [done|]. intros. eapply rewritten_step; eauto. Qed.

Lemma rewritten_mono (P Q : path → Prop) n n' :
  (∀ p, P p → Q p) → rewritten P n n' → rewritten Q n n'.
Proof. intros HPQ. induction 1; [constructor|]. eapply rewritten_step; eauto. Qed.



(** ** One step of the loop *)

Lemma rewritten_file_settled f : CR ∉ decoded (f_content (rewritten_file f)).
Proof.
  rewrite decoded_CR. pose proof (rewritten_file_content f) as Henc.
  apply encode_utf8_aligned in Henc.
  rewrite (aligned_elem_of CR _ _ ltac:(unfold CR; lia) Henc).
  apply normalize_text_no_CR.
Qed.

Lemma settled_store n p q f0 f :
  file_at n p = Some f0 →
  (q = p → f_readable f = true → f_writable f = true →
   CR ∉ decoded (f_content f)) →
  settled n q → settled (store_file n p f) q.
Proof.
  intros Hp Hf Hq. unfold settled. destruct (decide (q = p)) as [->|Hne].
  - rewrite (file_at_store_eq _ _ _ _ Hp). by apply Hf.
  - by rewrite (file_at_store_ne _ _ _ _ _ Hp Hne).
Qed.

(** All there is to know about one call. *)
Lemma normalize_step p w :
  ∃ b w',
    normalize_line_endings p w = (inr b, w')
    ∧ rewritten (λ q, q = p) (fs w) (fs w')
    ∧ (stdout w' = stdout w ∨ ∃ e, stdout w' = stdout w ++ [ErrorProcessing p e])
    ∧ (∀ q, settled (fs w) q → settled (fs w') q)
    ∧ settled (fs w') p
    ∧ (settled (fs w) p → b = false ∧ fs w' = fs w).
Proof.
  rewrite normalize_line_endings_eq. unfold reported.
  destruct w as [n out]. cbn [fs stdout].
  assert (∀ out',
    settled n p →
    (out' = out ∨ ∃ e, out' = out ++ [ErrorProcessing p e]) →
    ∃ b w',
      (inr false, World n out') = (@inr exn bool b, w')
      ∧ rewritten (λ q, q = p) n (fs w')
      ∧ (stdout w' = out ∨ ∃ e, stdout w' = out ++ [ErrorProcessing p e])
      ∧ (∀ q, settled n q → settled (fs w') q)
      ∧ settled (fs w') p
      ∧ (settled n p → b = false ∧ fs w' = n)) as Hsame.
  { intros out' Hs Hout. exists false, (World n out').
    split; [done|]. split; [constructor|]. done. }
  destruct (lookup_path n p) as [[f|es]|] eqn:E.
  - assert (file_at n p = Some f) as Hf by (unfold file_at; by rewrite E).
    destruct (f_readable f) eqn:Hr.
    2:{ apply Hsame; [|right; by eexists].
        unfold settled. rewrite Hf. by rewrite Hr. }
    destruct (decide (CR ∈ decoded (f_content f))) as [Hcr|Hcr].
    + rewrite bool_decide_eq_true_2 by done.
      destruct (f_writable f) eqn:Hw.
      2:{ apply Hsame; [|right; by eexists].
          unfold settled. rewrite Hf. by rewrite Hw. }
      eexists _, _. split; [done|]. cbn [fs stdout]. split.
      { eapply rewritten_step; [done|exact E|constructor]. }
      split; [by left|]. split.
      { intros q. apply (settled_store _ _ _ f); [done|].
        intros _ _ _. apply rewritten_file_settled. }
      split.
      { unfold settled. rewrite (file_at_store_eq _ _ _ _ Hf).
        intros _ _. apply rewritten_file_settled. }
      unfold settled. rewrite Hf. intros Hs. by destruct (Hs Hr Hw).
    + rewrite bool_decide_eq_false_2 by done.
      apply Hsame; [|by left]. unfold settled. by rewrite Hf.
  - apply Hsame; [|right; by eexists]. unfold settled, file_at. by rewrite E.
  - apply Hsame; [|right; by eexists]. unfold settled, file_at. by rewrite E.
Qed.

Lemma relative_to_app base r : relative_to (base ++ r) base = Some r.
Proof.
  induction base as [|b base IH]; [done|]. cbn [app relative_to].
  by rewrite decide_True.
Qed.

(** All there is to know about one turn of the loop on a file below the
    start directory. *)
Lemma visit_path_step ul start_dir counts p w :
  (∃ ds f, p = start_dir ++ ds ++ [f]) →
  ∃ counts' w',
    visit_path ul start_dir counts p w = (inr counts', w')
    ∧ counts'.1 = (counts.1 + (if should_process_file ul p then 1 else 0))%Z
    ∧ (counts'.2 = counts.2
       ∨ (counts'.2 = counts.2 + 1 ∧ counts'.1 = counts.1 + 1))%Z
    ∧ rewritten (λ q, q = p ∧ should_process_file ul p = true) (fs w) (fs w')
    ∧ (∃ lines, stdout w' = stdout w ++ lines ∧ Forall progress_line lines)
    ∧ (∀ q, settled (fs w) q → settled (fs w') q)
    ∧ (should_process_file ul p = true → settled (fs w') p)
    ∧ ((should_process_file ul p = true → settled (fs w) p) →
       counts'.2 = counts.2 ∧ fs w' = fs w
       ∧ ∃ lines, stdout w' = stdout w ++ lines ∧ Forall error_line lines).
Proof.
  intros (ds & f & Hp).
  assert (visit_path ul start_dir counts p w
          = if should_process_file ul p then
              match normalize_line_endings p w with
              | (inr true, w') =>
                  (inr ((counts.1 + 1)%Z, (counts.2 + 1)%Z),
                   World (fs w') (stdout w' ++ [Normalized (ds ++ [f])]))
              | (inr false, w') => (inr ((counts.1 + 1)%Z, counts.2), w')
              | (inl e, w') => (inl e, w')
              end
            else (inr counts, w)) as ->.
  { rewrite Hp, (app_assoc start_dir ds [f]), <- visit_visit_path, visit_eq.
    by rewrite <- (app_assoc start_dir ds [f]), relative_to_app. }
  clear Hp. destruct (should_process_file ul p) eqn:Hsel.
  2:{ exists counts, w. split; [done|]. split; [lia|]. split; [by left|].
      split; [constructor|]. split; [exists []; by rewrite app_nil_r|].
      split; [done|]. split; [done|]. intros _. split; [done|].
      split; [done|]. exists []. by rewrite app_nil_r. }
  destruct (normalize_step p w) as (b & w' & -> & Hrw & Hout & Hset & Hp' & Hs).
  assert (rewritten (λ q, q = p ∧ true = true) (fs w) (fs w')) as Hrw'
    by (eapply rewritten_mono; [|exact Hrw]; by intros q ->).
  destruct b.
  - eexists _, _. split; [done|]. cbn [fst snd fs stdout].
    split; [done|]. split; [right; by split|]. split; [done|]. split.
    { destruct Hout as [->|[e ->]].
      - eexists. split; [done|]. by repeat constructor.
      - eexists. rewrite <- app_assoc. split; [done|]. by repeat constructor. }
    split; [done|]. split; [done|].
    intros Hs'. by destruct (Hs (Hs' eq_refl)).
  - eexists _, _. split; [done|]. cbn [fst snd].
    split; [done|]. split; [by left|]. split; [done|]. split.
    { destruct Hout as [->|[e ->]].
      - exists []. by rewrite app_nil_r.
      - eexists. split; [done|]. by repeat constructor. }
    split; [done|]. split; [done|].
    intros Hs'. destruct (Hs (Hs' eq_refl)) as [_ ->]. split; [done|].
    split; [done|]. destruct Hout as [->|[e ->]].
    + exists []. by rewrite app_nil_r.
    + eexists. split; [done|]. by repeat constructor.
Qed.

(** ** The whole loop *)

Lemma loop_spec ul start_dir l :
  Forall (λ p, ∃ ds f, p = start_dir ++ ds ++ [f]) l →
  ∀ counts w, ∃ counts' w',
    for_each (visit_path ul start_dir) counts l w = (inr counts', w')
    ∧ counts'.1
      = (counts.1
         + Z.of_nat (length (filter (λ p, should_process_file ul p = true) l)))%Z
    ∧ (counts.2 ≤ counts'.2 ≤ counts.2 + (counts'.1 - counts.1))%Z
    ∧ rewritten (λ p, p ∈ l ∧ should_process_file ul p = true) (fs w) (fs w')
    ∧ (∃ lines, stdout w' = stdout w ++ lines ∧ Forall progress_line lines)
    ∧ (∀ q, settled (fs w) q → settled (fs w') q)
    ∧ Forall (λ p, should_process_file ul p = true → settled (fs w') p) l.
Proof.
  induction 1 as [|p l Hp _ IH]; intros counts w.
  { exists counts, w. split; [done|]. cbn. split; [lia|]. split; [lia|].
    split; [constructor|]. split; [exists []; by rewrite app_nil_r|].
    by split. }
  destruct (visit_path_step ul start_dir counts p w Hp)
    as (c1 & w1 & Hv & Hc1 & Hc2 & Hrw1 & (ls1 & Ho1 & Hl1) & Hs1 & Hp1 & _).
  destruct (IH c1 w1)
    as (c2 & w2 & Hf & Hd1 & Hd2 & Hrw2 & (ls2 & Ho2 & Hl2) & Hs2 & Hall).
  exists c2, w2. cbn [for_each]. unfold mbind, M_bind. rewrite Hv.
  split; [done|]. rewrite filter_cons. split.
  { rewrite Hd1, Hc1. destruct (should_process_file ul p).
    - rewrite decide_True by done. cbn [length]. lia.
    - rewrite decide_False by done. lia. }
  split.
  { rewrite Hd1 in *. rewrite Hc1 in *.
    destruct (should_process_file ul p); lia. }
  split.
  { eapply rewritten_trans.
    - eapply rewritten_mono; [|exact Hrw1]. intros q [-> ?]. split; [left|done].
    - eapply rewritten_mono; [|exact Hrw2]. intros q [? ?].
      split; [by right|done]. }
  split.
  { exists (ls1 ++ ls2). rewrite Ho2, Ho1, <- app_assoc. split; [done|].
    by apply Forall_app. }
  split; [intros q Hq; by apply Hs2, Hs1|].
  constructor; [|done]. intros Hsel. by apply Hs2, Hp1.
Qed.


(** ** main, case by case *)

Lemma main_eq ul argv cwd w :
  main ul argv cwd w =
  match lookup_path (fs w) (start_dir_of argv cwd) with
  | None =>
      (inl (SystemExit 1),
       World (fs w) (stdout w ++ [ErrorNoDirectory (start_dir_of argv cwd)]))
  | Some n =>
      match
        for_each (visit_path ul (start_dir_of argv cwd)) (0, 0)%Z
          (tree_files (start_dir_of argv cwd) n)
          (World (fs w) (stdout w ++ header (start_dir_of argv cwd)))
      with
      | (inr counts, w1) => (inr (), World (fs w1) (stdout w1 ++ summary counts))
      | (inl e, w1) => (inl e, w1)
      end
  end.
Proof.
  unfold main. fold (start_dir_of argv cwd).
  set (start_dir := start_dir_of argv cwd).
  unfold mbind, M_bind, path_exists, os_walk_at, print, raise.
  cbn [fs stdout].
  destruct (lookup_path (fs w) start_dir) as [n|] eqn:E.
  - rewrite bool_decide_eq_true_2 by done. cbn [negb mret M_ret fs stdout].
    rewrite E, walk_loop_os_walk. unfold mbind, M_bind.
    rewrite <- !app_assoc. cbn [app]. fold (header start_dir).
    destruct (for_each _ _ _ _) as [[e|counts] w1]; [done|].
    cbn [walk_loop mret M_ret fs stdout]. rewrite <- !app_assoc. done.
  - rewrite bool_decide_eq_false_2 by (by intros [? ?]). done.
Qed.

(** A run on an existing start directory. *)
Lemma main_run ul argv cwd w n :
  lookup_path (fs w) (start_dir_of argv cwd) = Some n →
  ∃ counts w1,
    for_each (visit_path ul (start_dir_of argv cwd)) (0, 0)%Z
      (tree_files (start_dir_of argv cwd) n)
      (World (fs w) (stdout w ++ header (start_dir_of argv cwd)))
    = (inr counts, w1)
    ∧ main ul argv cwd w = (inr (), World (fs w1) (stdout w1 ++ summary counts))
    ∧ counts.1
      = Z.of_nat (length (filter (λ p, should_process_file ul p = true)
                            (tree_files (start_dir_of argv cwd) n)))
    ∧ (0 ≤ counts.2 ≤ counts.1)%Z
    ∧ rewritten (λ p, p ∈ tree_files (start_dir_of argv cwd) n
                      ∧ should_process_file ul p = true) (fs w) (fs w1)
    ∧ (∃ lines, stdout w1 = stdout w ++ header (start_dir_of argv cwd) ++ lines
                ∧ Forall progress_line lines)
    ∧ Forall (λ p, should_process_file ul p = true → settled (fs w1) p)
        (tree_files (start_dir_of argv cwd) n).
Proof.
  intros E. set (start_dir := start_dir_of argv cwd) in *.
  assert (Forall (λ p, ∃ ds f, p = start_dir ++ ds ++ [f])
            (tree_files start_dir n)) as Hbelow.
  { apply Forall_forall. intros p Hp.
    destruct (tree_files_inv _ _ _ Hp) as (ds & f & -> & _). by eexists _, _. }
  destruct (loop_spec ul start_dir _ Hbelow (0, 0)%Z
              (World (fs w) (stdout w ++ header start_dir)))
    as (counts & w1 & Hloop & Hc1 & Hc2 & Hrw & (lines & Hout & Hlines) & _ & Hset).
  exists counts, w1. split; [done|]. split.
  { rewrite main_eq. fold start_dir. by rewrite E, Hloop. }
  cbn [fst snd fs stdout] in *.
  split; [lia|]. split; [lia|]. split; [done|]. split; [|done].
  exists lines. by rewrite Hout, <- app_assoc.
Qed.

(** ** The run *)


Lemma visit_counts ul start_dir root counts filename w counts' w' :
  visit ul start_dir root counts filename w = (inr counts', w') →
  (counts'.1 = counts.1 ∧ counts'.2 = counts.2)
  ∨ (counts'.1 = counts.1 + 1 ∧ counts'.2 = counts.2)%Z
  ∨ (counts'.1 = counts.1 + 1 ∧ counts'.2 = counts.2 + 1)%Z.
Proof.
  rewrite visit_eq. destruct (should_process_file _ _).
  - destruct (relative_to _ _); [|done].
    destruct (normalize_line_endings _ w) as [[e|[|]] w1]; [done|..];
      intros [= <- _]; cbn; auto.
  - intros [= <- _]. auto.
Qed.

Lemma for_each_counts {A} (body : Z * Z → A → M (Z * Z)) l :
  (∀ counts a w counts' w',
     body counts a w = (inr counts', w') →
     (counts'.1 = counts.1 ∧ counts'.2 = counts.2)
     ∨ (counts'.1 = counts.1 + 1 ∧ counts'.2 = counts.2)%Z
     ∨ (counts'.1 = counts.1 + 1 ∧ counts'.2 = counts.2 + 1)%Z) →
  ∀ counts w counts' w',
    for_each body counts l w = (inr counts', w') →
    (counts.1 ≤ counts'.1 ∧ counts.2 ≤ counts'.2
     ∧ counts'.2 - counts.2 ≤ counts'.1 - counts.1)%Z.
Proof.
  intros Hbody. induction l as [|a l IH]; intros counts w counts' w'.
  { intros [= <- _]. lia. }
  cbn [for_each]. unfold mbind, M_bind.
  destruct (body counts a w) as [[e|c1] w1] eqn:E; [done|].
  intros H. apply IH in H. apply Hbody in E. lia.
Qed.

Lemma walk_loop_counts ul start_dir wk :
  ∀ counts w counts' w',
    walk_loop ul start_dir wk counts w = (inr counts', w') →
    (counts.1 ≤ counts'.1 ∧ counts.2 ≤ counts'.2
     ∧ counts'.2 - counts.2 ≤ counts'.1 - counts.1)%Z.
Proof.
  induction wk as [|root dirs files resume IH]; intros counts w counts' w'.
  { intros [= <- _]. lia. }
  cbn [walk_loop]. unfold mbind, M_bind.
  destruct (for_each _ counts files w) as [[e|c1] w1] eqn:E; [done|].
  intros H. apply IH in H.
  apply (for_each_counts _ _ (visit_counts ul start_dir root)) in E. lia.
Qed.

(** C9.  The counters start at zero and satisfy
    [0 <= changed_count <= processed_count] throughout: one turn of the
    loop never decreases a counter and adds one to [changed_count] only
    together with one to [processed_count]; so the invariant holds after
    any number of turns, over the files of a directory and over the whole
    walk, and for the counts that the summary prints. *)
Theorem counters_invariant ul start_dir :
  (∀ root counts filename w counts' w',
     visit ul start_dir root counts filename w = (inr counts', w') →
     (counts.1 ≤ counts'.1 ∧ counts.2 ≤ counts'.2
      ∧ (counts'.2 ≠ counts.2 →
         counts'.2 = counts.2 + 1 ∧ counts'.1 = counts.1 + 1)
      ∧ (0 ≤ counts.2 ≤ counts.1 → 0 ≤ counts'.2 ≤ counts'.1))%Z)
  ∧ (∀ root files counts w counts' w',
       for_each (visit ul start_dir root) counts files w = (inr counts', w') →
       (counts.1 ≤ counts'.1 ∧ counts.2 ≤ counts'.2
        ∧ (0 ≤ counts.2 ≤ counts.1 → 0 ≤ counts'.2 ≤ counts'.1))%Z)
  ∧ (∀ wk counts w counts' w',
       walk_loop ul start_dir wk counts w = (inr counts', w') →
       (counts.1 ≤ counts'.1 ∧ counts.2 ≤ counts'.2
        ∧ (0 ≤ counts.2 ≤ counts.1 → 0 ≤ counts'.2 ≤ counts'.1))%Z)
  ∧ (∀ wk w counts' w',
       walk_loop ul start_dir wk (0, 0)%Z w = (inr counts', w') →
       (0 ≤ counts'.2 ≤ counts'.1)%Z)
  ∧ (∀ argv cwd w n done todo,
       lookup_path (fs w) (start_dir_of argv cwd) = Some n →
       tree_files (start_dir_of argv cwd) n = done ++ todo →
       ∃ counts w1,
         for_each (visit_path ul (start_dir_of argv cwd)) (0, 0)%Z done
           (World (fs w) (stdout w ++ header (start_dir_of argv cwd)))
         = (inr counts, w1)
         ∧ (0 ≤ counts.2 ≤ counts.1)%Z)
  ∧ (∀ argv cwd w w',
       main ul argv cwd w = (inr (), w') →
       ∃ out counts,
         stdout w' = out ++ summary counts ∧ (0 ≤ counts.2 ≤ counts.1)%Z).
Proof.
  split; [|split; [|split; [|split; [|split]]]].
  - intros root counts filename w counts' w' H.
    apply visit_counts in H. lia.
  - intros root files counts w counts' w' H.
    apply (for_each_counts _ _ (visit_counts ul start_dir root)) in H. lia.
  - intros wk counts w counts' w' H. apply walk_loop_counts in H. lia.
  - intros wk w counts' w' H. apply walk_loop_counts in H. cbn in H. lia.
  - intros argv cwd w n done todo E Hsplit.
    assert (Forall (λ p, ∃ ds f, p = start_dir_of argv cwd ++ ds ++ [f]) done)
      as Hbelow.
    { apply Forall_forall. intros p Hp.
      destruct (tree_files_inv n (start_dir_of argv cwd) p)
        as (ds & f & -> & _); [|by eexists _, _].
      rewrite Hsplit, elem_of_app. by left. }
    destruct (loop_spec ul _ _ Hbelow (0, 0)%Z
                (World (fs w) (stdout w ++ header (start_dir_of argv cwd))))
      as (counts & w1 & Hloop & Hc1 & Hc2 & _).
    exists counts, w1. split; [done|]. cbn [fst snd] in *. lia.
  - intros argv cwd w w'. rewrite main_eq.
    destruct (lookup_path _ _) as [n|] eqn:E; [|done].
    destruct (main_run ul argv cwd w n E) as (counts & w1 & -> & _ & _ & Hc & _).
    intros [= <-]. by exists (stdout w1), counts.
Qed.





(** ** The theorems at work on concrete inputs *)

Lemma normalize_line_endings_converts_example :
  ∃ f',
    normalize_line_endings example_path (example_world example_input)
    = (inr true,
       World (store_file (fs (example_world example_input)) example_path f') [])
    ∧ f_content f' = example_output.
Proof.
  destruct (normalize_line_endings_converts example_path
              (example_world example_input) (example_file example_input))
    as (f' & Hrun & _ & _ & _ & _ & Hex).
  - reflexivity.
  - reflexivity.
  - reflexivity.
  - apply (bool_decide_unpack _). vm_compute. exact I.
  - exists f'. split; [exact Hrun|]. apply Hex. reflexivity.
Defined.

Lemma normalize_line_endings_no_CR_example :
  normalize_line_endings example_path (example_world [x61; x0a])
  = (inr false, example_world [x61; x0a]).
Proof.
  destruct (normalize_line_endings_no_CR example_path
              (example_world [x61; x0a]) (example_file [x61; x0a]))
    as (_ & _ & Hsame & _).
  - reflexivity.
  - apply (bool_decide_unpack _). vm_compute. exact I.
  - apply Hsame. reflexivity.
Defined.

Lemma latin1_fallback_example :
  ∃ f',
    normalize_line_endings example_path (example_world [xe9; xe9; x0d])
    = (inr true,
       World (store_file (fs (example_world [xe9; xe9; x0d])) example_path f')
             [])
    ∧ f_content f' = [xc3; xa9; xc3; xa9; x0a]
    ∧ (length [xe9; xe9; x0d] < length (f_content f'))%nat.
Proof.
  destruct (latin1_fallback_rewrites_as_utf8 example_path
              (example_world [xe9; xe9; x0d]) (example_file [xe9; xe9; x0d]))
    as (f' & Hrun & _ & _ & _ & Hcontent & _ & _ & Hgrow).
  - reflexivity.
  - reflexivity.
  - reflexivity.
  - reflexivity.
  - apply (bool_decide_unpack _). vm_compute. exact I.
  - exists f'. split; [exact Hrun|]. split.
    + rewrite Hcontent. reflexivity.
    + apply Hgrow. vm_compute. lia.
Defined.



(** ** UTF-8 round trips *)

Ltac decide_tests :=
  repeat first
    [ rewrite (proj2 (N.ltb_lt _ _)) by lia
    | rewrite (proj2 (N.ltb_ge _ _)) by lia
    | rewrite (proj2 (N.leb_le _ _)) by lia
    | rewrite (proj2 (N.eqb_eq _ _)) by lia
    | rewrite (proj2 (N.eqb_neq _ _)) by lia ];
  cbn [andb].

Lemma div_mod_64 c :
  c = 64 * (c / 64) + c mod 64 ∧ c mod 64 < 64.
Proof.
  split; [apply N.div_mod; lia|apply N.mod_upper_bound; lia].
Qed.

(** Decoding reads back the character that was encoded, and goes on with
    what follows. *)
Lemma decode_encode_char c bs r :
  encode_utf8_char c = Some bs →
  decode_utf8 (bs ++ r) = cons c <$> decode_utf8 r.
Proof.
  unfold encode_utf8_char.
  destruct (div_mod_64 c) as [Hc Hm].
  destruct (div_mod_64 (c / 64)) as [Hc1 Hm1].
  destruct (div_mod_64 (c / 64 / 64)) as [Hc2 Hm2].
  assert (c / 4096 = c / 64 / 64) as ->
    by (by rewrite N.Div0.div_div).
  assert (c / 262144 = c / 64 / 64 / 64) as ->
    by (by rewrite !N.Div0.div_div).
  set (m := c mod 64) in *. set (q := c / 64) in *.
  set (m1 := q mod 64) in *. set (q1 := q / 64) in *.
  set (m2 := q1 mod 64) in *. set (q2 := q1 / 64) in *.
  destruct (c <? 0x80) eqn:H1.
  { to_props. intros [= <-]. cbn [app decode_utf8].
    rewrite to_N_byte_of_N by lia. by decide_tests. }
  destruct (c <? 0x800) eqn:H2.
  { to_props. intros [= <-]. cbn [app decode_utf8].
    rewrite !to_N_byte_of_N by lia. unfold in_range. decide_tests.
    by replace ((192 + q - 192) * 64 + (128 + m - 128)) with c by lia. }
  destruct (c <? 0x10000) eqn:H3.
  { destruct (in_range 0xD800 0xDFFF c) eqn:H4; [done|].
    unfold in_range in H4. apply andb_false_iff in H4.
    to_props. intros [= <-]. cbn [app decode_utf8].
    rewrite !to_N_byte_of_N by lia. unfold in_range.
    destruct (N.eqb_spec (224 + q1) 224), (N.eqb_spec (224 + q1) 237);
      try lia; decide_tests;
      (destruct H4 as [H4|H4]; [apply N.leb_gt in H4|apply N.leb_gt in H4]);
      decide_tests;
      by replace ((224 + q1 - 224) * 4096 + (128 + m1 - 128) * 64
                  + (128 + m - 128)) with c by lia. }
  destruct (c <? 0x110000) eqn:H4; [|done].
  to_props. intros [= <-]. cbn [app decode_utf8].
  rewrite !to_N_byte_of_N by lia. unfold in_range.
  destruct (N.eqb_spec (240 + q2) 240), (N.eqb_spec (240 + q2) 244);
    try lia; decide_tests;
    by replace ((240 + q2 - 240) * 262144 + (128 + m2 - 128) * 4096
                + (128 + m1 - 128) * 64 + (128 + m - 128)) with c by lia.
Qed.

Lemma decode_encode t bs : encode_utf8 t = Some bs → decode_utf8 bs = Some t.
Proof.
  revert bs. induction t as [|c t IH]; intros bs; cbn [encode_utf8].
  { by intros [= <-]. }
  destruct (encode_utf8_char c) as [b|] eqn:Ec; [|done].
  destruct (encode_utf8 t) as [r|]; [|done]. intros [= <-].
  by rewrite (decode_encode_char _ _ _ Ec), (IH r).
Qed.

Lemma encode_bytes_of (x : N) (b : byte) : x = Byte.to_N b → byte_of_N x = b.
Proof. intros ->. apply byte_of_N_to_N. Qed.

(** The first character of a successful decoding, and the bytes it was
    read from: they are that character's own encoding. *)
Lemma decode_utf8_step b0 r0 t :
  decode_utf8 (b0 :: r0) = Some t →
  ∃ c pre r t',
    b0 :: r0 = pre ++ r ∧ (length r < length (b0 :: r0))%nat
    ∧ t = c :: t' ∧ decode_utf8 r = Some t'
    ∧ encode_utf8_char c = Some pre.
Proof.
  cbn [decode_utf8].
  pose proof (to_N_lt_256 b0) as Hb0. set (x0 := Byte.to_N b0) in *.
  assert (∀ (pre : bytes) (c : N) r,
            b0 :: r0 = pre ++ r → (length r < length (b0 :: r0))%nat →
            encode_utf8_char c = Some pre →
            cons c <$> decode_utf8 r = Some t →
            ∃ c pre r t',
              b0 :: r0 = pre ++ r ∧ (length r < length (b0 :: r0))%nat
              ∧ t = c :: t' ∧ decode_utf8 r = Some t'
              ∧ encode_utf8_char c = Some pre) as Hstep.
  { intros pre c r Hsplit Hlen Henc Hdec.
    destruct (decode_utf8 r) as [t'|] eqn:E; [|done]. injection Hdec as <-.
    by exists c, pre, r, t'. }
  destruct (x0 <? 0x80) eqn:Hlt1.
  { to_props. apply (Hstep [b0]); [done|cbn; lia|].
    unfold encode_utf8_char. decide_tests. f_equal. f_equal.
    by apply encode_bytes_of. }
  destruct (x0 <? 0xC2) eqn:Hlt2; [done|].
  destruct (x0 <? 0xE0) eqn:Hlt3.
  { destruct r0 as [|b1 r1]; [done|].
    pose proof (to_N_lt_256 b1). set (x1 := Byte.to_N b1) in *.
    destruct (in_range 0x80 0xBF x1) eqn:Hrange; [|done]. to_props.
    apply (Hstep [b0; b1]); [done|cbn; lia|].
    set (c := (x0 - 192) * 64 + (x1 - 128)).
    assert (c / 64 = x0 - 192) as Hq
      by (symmetry; apply (N.div_unique c 64 _ (x1 - 128)); unfold c; lia).
    assert (c mod 64 = x1 - 128) as Hm
      by (symmetry; apply (N.mod_unique c 64 (x0 - 192)); unfold c; lia).
    unfold encode_utf8_char. rewrite Hq, Hm.
    assert (128 ≤ c < 2048) by (unfold c; lia). decide_tests.
    f_equal. repeat f_equal; apply encode_bytes_of; fold x0 x1; lia. }
  destruct (x0 <? 0xF0) eqn:Hlt4.
  { destruct r0 as [|b1 [|b2 r2]]; [done|done|].
    pose proof (to_N_lt_256 b1). pose proof (to_N_lt_256 b2).
    set (x1 := Byte.to_N b1) in *. set (x2 := Byte.to_N b2) in *.
    destruct (_ && _) eqn:Hrange; [|done]. to_props.
    assert (128 ≤ x1 ≤ 191) by
      (destruct (x0 =? 0xE0), (x0 =? 0xED); lia).
    apply (Hstep [b0; b1; b2]); [done|cbn; lia|].
    set (c := (x0 - 224) * 4096 + (x1 - 128) * 64 + (x2 - 128)).
    assert (c / 64 = (x0 - 224) * 64 + (x1 - 128)) as Hq
      by (symmetry; apply (N.div_unique c 64 _ (x2 - 128)); unfold c; lia).
    assert (c mod 64 = x2 - 128) as Hm
      by (symmetry; apply (N.mod_unique c 64 ((x0 - 224) * 64 + (x1 - 128)));
          unfold c; lia).
    assert (c / 4096 = x0 - 224) as Hq1
      by (symmetry;
          apply (N.div_unique c 4096 _ ((x1 - 128) * 64 + (x2 - 128)));
          unfold c; lia).
    assert ((c / 64) mod 64 = x1 - 128) as Hm1
      by (rewrite Hq; symmetry;
          apply (N.mod_unique _ 64 (x0 - 224)); lia).
    unfold encode_utf8_char, in_range. rewrite Hq1, Hm1, Hm.
    assert (2048 ≤ c < 65536 ∧ ¬ (55296 ≤ c ≤ 57343)) as [? Hsur]
      by (unfold c; destruct (N.eqb_spec x0 0xE0), (N.eqb_spec x0 0xED); lia).
    decide_tests.
    destruct (N.leb_spec 55296 c), (N.leb_spec c 57343); cbn [andb];
      try (exfalso; lia);
      f_equal; repeat f_equal; apply encode_bytes_of; fold x0 x1 x2; lia. }
  destruct (x0 <? 0xF5) eqn:Hlt5; [|done].
  destruct r0 as [|b1 [|b2 [|b3 r3]]]; [done|done|done|].
  pose proof (to_N_lt_256 b1). pose proof (to_N_lt_256 b2).
  pose proof (to_N_lt_256 b3).
  set (x1 := Byte.to_N b1) in *. set (x2 := Byte.to_N b2) in *.
  set (x3 := Byte.to_N b3) in *.
  destruct (_ && _) eqn:Hrange; [|done]. to_props.
  assert (128 ≤ x1 ≤ 191) by (destruct (x0 =? 0xF0), (x0 =? 0xF4); lia).
  apply (Hstep [b0; b1; b2; b3]); [done|cbn; lia|].
  set (c := (x0 - 240) * 262144 + (x1 - 128) * 4096 + (x2 - 128) * 64
            + (x3 - 128)).
  assert (c / 64 = (x0 - 240) * 4096 + (x1 - 128) * 64 + (x2 - 128)) as Hq
    by (symmetry; apply (N.div_unique c 64 _ (x3 - 128)); unfold c; lia).
  assert (c mod 64 = x3 - 128) as Hm
    by (symmetry;
        apply (N.mod_unique c 64
                 ((x0 - 240) * 4096 + (x1 - 128) * 64 + (x2 - 128)));
        unfold c; lia).
  assert (c / 4096 = (x0 - 240) * 64 + (x1 - 128)) as Hq1
    by (symmetry;
        apply (N.div_unique c 4096 _ ((x2 - 128) * 64 + (x3 - 128)));
        unfold c; lia).
  assert (c / 262144 = x0 - 240) as Hq2
    by (symmetry;
        apply (N.div_unique c 262144 _
                 ((x1 - 128) * 4096 + (x2 - 128) * 64 + (x3 - 128)));
        unfold c; lia).
  assert ((c / 64) mod 64 = x2 - 128) as Hm1
    by (rewrite Hq; symmetry;
        apply (N.mod_unique _ 64 ((x0 - 240) * 64 + (x1 - 128))); lia).
  assert ((c / 4096) mod 64 = x1 - 128) as Hm2
    by (rewrite Hq1; symmetry; apply (N.mod_unique _ 64 (x0 - 240)); lia).
  unfold encode_utf8_char. rewrite Hq2, Hm2, Hm1, Hm.
  assert (65536 ≤ c < 1114112)
    by (unfold c; destruct (N.eqb_spec x0 0xF0), (N.eqb_spec x0 0xF4); lia).
  decide_tests.
  f_equal. repeat f_equal; apply encode_bytes_of; fold x0 x1 x2 x3; lia.
Qed.

Lemma encode_decode bs t : decode_utf8 bs = Some t → encode_utf8 t = Some bs.
Proof.
  remember (length bs) as n eqn:Hn. revert bs t Hn.
  induction n as [n IH] using lt_wf_ind. intros bs t Hn.
  destruct bs as [|b0 r0]; [by intros [= <-]|].
  intros Hdec.
  destruct (decode_utf8_step _ _ _ Hdec)
    as (c & pre & r & t' & Hsplit & Hlen & -> & Hr & Hc).
  cbn [encode_utf8]. rewrite Hc.
  rewrite (IH (length r) ltac:(lia) r t' eq_refl Hr). by rewrite Hsplit.
Qed.

(** ** More on the conversion of a text *)

(** X1.  UTF-8 encoding and strict UTF-8 decoding are inverse to each
    other: the bytes [encode] gives for a text decode to that text, and
    the text [decode] gives for a byte string encodes to those bytes.  So
    exactly the well-formed byte strings decode, each to one text. *)
Theorem utf8_round_trip t bs :
  encode_utf8 t = Some bs ↔ decode_utf8 bs = Some t.
Proof. split; [apply decode_encode|apply encode_decode]. Qed.

Lemma encode_utf8_cons_ascii c t :
  c < 0x80 →
  encode_utf8 (c :: t) = cons (byte_of_N c) <$> encode_utf8 t.
Proof.
  intros Hc. cbn [encode_utf8]. unfold encode_utf8_char.
  rewrite (proj2 (N.ltb_lt _ _) Hc). by destruct (encode_utf8 t).
Qed.

Lemma encode_utf8_cons_length c t bs :
  encode_utf8 (c :: t) = Some bs →
  ∃ b r, encode_utf8_char c = Some b ∧ encode_utf8 t = Some r
         ∧ bs = b ++ r.
Proof.
  cbn [encode_utf8]. destruct (encode_utf8_char c) as [b|]; [|done].
  destruct (encode_utf8 t) as [r|]; [|done]. intros [= <-]. by exists b, r.
Qed.

(** Re-encoding the normalised text drops one byte per CR LF pair and no
    other. *)
Lemma encode_normalize_length t :
  ∀ bs bs',
    encode_utf8 t = Some bs →
    encode_utf8 (normalize_text t) = Some bs' →
    (length bs' + crlf_pairs t = length bs)%nat.
Proof.
  induction t as [|s IH|c s Hc IH] using crlf_ind; intros bs bs'.
  - by intros [= <-] [= <-].
  - rewrite normalize_text_pair.
    rewrite !encode_utf8_cons_ascii by (unfold CR, LF; lia).
    destruct (encode_utf8 s) as [r|] eqn:Es; [|done].
    destruct (encode_utf8 (normalize_text s)) as [r'|] eqn:Es'; [|done].
    intros [= <-] [= <-]. specialize (IH r r' eq_refl eq_refl).
    change (crlf_pairs (CR :: LF :: s)) with (S (crlf_pairs s)).
    cbn [length]. lia.
  - rewrite normalize_text_cons_other, crlf_pairs_other by done.
    intros (b & r & Hb & Hr & ->)%encode_utf8_cons_length.
    intros (b' & r' & Hb' & Hr' & ->)%encode_utf8_cons_length.
    specialize (IH r r' Hr Hr'). rewrite !length_app.
    destruct (N.eqb_spec c CR) as [->|].
    + vm_compute in Hb, Hb'. injection Hb as <-. injection Hb' as <-.
      cbn [length]. lia.
    + rewrite Hb in Hb'. injection Hb' as <-. lia.
Qed.

(** X2.  A readable and writable file that is UTF-8 and holds a CR is
    rewritten as UTF-8: the new bytes decode, strictly, to the text with
    its terminators converted, every other character as it was and in
    place; the file loses one byte per CR LF pair and is never longer
    than before. *)
Theorem utf8_file_stays_utf8 p w f t :
  file_at (fs w) p = Some f →
  f_readable f = true →
  f_writable f = true →
  decode_utf8 (f_content f) = Some t →
  CR ∈ t →
  ∃ f',
    normalize_line_endings p w
    = (inr true, World (store_file (fs w) p f') (stdout w))
    ∧ decode_utf8 (f_content f') = Some (normalize_text t)
    ∧ filter (λ c, c ≠ CR ∧ c ≠ LF) (normalize_text t)
      = filter (λ c, c ≠ CR ∧ c ≠ LF) t
    ∧ (length (f_content f') + crlf_pairs t = length (f_content f))%nat
    ∧ (length (f_content f') ≤ length (f_content f))%nat
    ∧ f_readable f' = f_readable f
    ∧ f_writable f' = f_writable f.
Proof.
  intros Hf Hr Hw Hdec Hcr.
  assert (decoded (f_content f) = t) as Ht by (unfold decoded; by rewrite Hdec).
  destruct (normalize_line_endings_rewrites p w f Hf Hr Hw) as [Hrun _].
  { apply decoded_CR. by rewrite Ht. }
  pose proof (rewritten_file_content f) as Henc. rewrite Ht in Henc.
  exists (rewritten_file f). split; [done|].
  split; [by apply decode_encode|]. split.
  { clear. induction t as [|s IH|c s Hc IH] using crlf_ind.
    - done.
    - rewrite normalize_text_pair, !filter_cons, IH.
      rewrite !decide_False; [done|by intros [? ?]..].
    - rewrite normalize_text_cons_other, !filter_cons, IH by done.
      destruct (N.eqb_spec c CR) as [->|]; [|done].
      rewrite !decide_False; [done|by intros [? ?]..]. }
  pose proof (encode_normalize_length t _ _ (encode_decode _ _ Hdec) Henc).
  split; [done|]. split; [lia|]. done.
Qed.

Lemma utf8_file_stays_utf8_example :
  ∃ f',
    normalize_line_endings example_path
      (example_world [xc3; xa9; x0d; x0a; xe2; x82; xac; x0d])
    = (inr true,
       World (store_file
                (fs (example_world [xc3; xa9; x0d; x0a; xe2; x82; xac; x0d]))
                example_path f') [])
    ∧ decode_utf8 (f_content f') = Some [0xE9; LF; 0x20AC; LF]
    ∧ length (f_content f') = 7%nat.
Proof.
  destruct (utf8_file_stays_utf8 example_path
              (example_world [xc3; xa9; x0d; x0a; xe2; x82; xac; x0d])
              (example_file [xc3; xa9; x0d; x0a; xe2; x82; xac; x0d])
              [0xE9; CR; LF; 0x20AC; CR])
    as (f' & Hrun & Hdec & _ & Hlen & _).
  - reflexivity.
  - reflexivity.
  - reflexivity.
  - reflexivity.
  - apply (bool_decide_unpack _). vm_compute. exact I.
  - exists f'. split; [exact Hrun|]. split; [exact Hdec|].
    cbn in Hlen. lia.
Defined.


Lemma last_cons_cons {A} (x y : A) l : last (x :: y :: l) = last (y :: l).
Proof. done. Qed.

Lemma normalize_text_app_safe s1 s2 :
  ¬ (last s1 = Some CR ∧ head s2 = Some LF) →
  normalize_text (s1 ++ s2) = normalize_text s1 ++ normalize_text s2.
Proof.
  induction s1 as [|s IH|c s Hc IH] using crlf_ind; intros Hcut.
  - done.
  - cbn [app]. rewrite !normalize_text_pair. cbn [app]. f_equal.
    apply IH. intros [Hl Hh]. apply Hcut. split; [|done].
    destruct s; [done|]. by rewrite !last_cons_cons.
  - cbn [app].
    assert (¬ (last s = Some CR ∧ head s2 = Some LF)) as Hcut'.
    { intros [Hl Hh]. apply Hcut. split; [|done].
      destruct s; [done|]. by rewrite last_cons_cons. }
    assert (startswith (c :: s ++ s2) [CR; LF] = false) as Hc'.
    { apply not_true_iff_false. intros [-> [s' Hs']]%startswith_crlf.
      destruct s as [|d s].
      - apply Hcut. split; [done|]. cbn in Hs'. by rewrite Hs'.
      - cbn [app] in Hs'. injection Hs' as -> _.
        apply not_true_iff_false in Hc. apply Hc.
        apply startswith_crlf. split; [done|by eexists]. }
    rewrite !normalize_text_cons_other by done. cbn [app]. f_equal.
    by apply IH.
Qed.

(** X4.  How the conversion composes over a concatenation: two pieces
    can be converted apart and joined, unless the cut separates a CR from
    the LF that follows it; across such a cut the pair gives one LF,
    where the pieces converted apart would give two. *)
Theorem normalize_text_concat s1 s2 :
  (¬ (last s1 = Some CR ∧ head s2 = Some LF) →
   normalize_text (s1 ++ s2) = normalize_text s1 ++ normalize_text s2)
  ∧ normalize_text ((s1 ++ [CR]) ++ LF :: s2)
    = normalize_text s1 ++ LF :: normalize_text s2
  ∧ normalize_text (s1 ++ [CR]) ++ normalize_text (LF :: s2)
    = normalize_text s1 ++ LF :: LF :: normalize_text s2.
Proof.
  split; [apply normalize_text_app_safe|]. split.
  - rewrite <- app_assoc. cbn [app]. rewrite normalize_text_app_safe.
    + by rewrite normalize_text_pair.
    + by intros [_ ?].
  - rewrite normalize_text_app_safe by (by intros [_ ?]).
    rewrite (normalize_text_cons_other LF s2) by done.
    by rewrite <- app_assoc.
Qed.

(** ** More on the selection of files *)

Lemma rfind_bounds c s : (-1 ≤ rfind c s < Z.of_nat (length s))%Z.
Proof.
  induction s as [|x s IH]; cbn [rfind length]; [lia|].
  destruct (Z.leb_spec 0 (rfind c s)); [lia|]. destruct (x =? c); lia.
Qed.

Lemma rfind_not_elem_of c s : c ∉ s → rfind c s = (-1)%Z.
Proof.
  induction s as [|x s IH]; [done|]. intros [Hx Hs]%not_elem_of_cons.
  cbn [rfind]. rewrite (IH Hs). cbn.
  destruct (N.eqb_spec x c); [congruence|done].
Qed.

Lemma rfind_snoc c s : rfind c (s ++ [c]) = Z.of_nat (length s).
Proof.
  induction s as [|x s IH]; cbn [app rfind length].
  - cbn. by rewrite N.eqb_refl.
  - rewrite IH. destruct (Z.leb_spec 0 (Z.of_nat (length s))); lia.
Qed.

Lemma rfind_fmap (g : N → N) c s :
  (∀ x, g x = c ↔ x = c) → rfind c (g <$> s) = rfind c s.
Proof.
  intros Hg. induction s as [|x s IH]; [done|].
  rewrite fmap_cons. cbn [rfind]. rewrite IH.
  destruct (Z.leb_spec 0 (rfind c s)); [done|].
  destruct (N.eqb_spec (g x) c) as [E|E], (N.eqb_spec x c) as [E'|E'];
    try done; exfalso;
    [by apply E', (proj1 (Hg x))|by apply E, (proj2 (Hg x))].
Qed.

Lemma ascii_lower_dot x : ascii_lower x = 46 ↔ x = 46.
Proof.
  unfold ascii_lower, in_range.
  destruct (N.leb_spec 65 x), (N.leb_spec x 90); cbn [andb]; lia.
Qed.

Lemma ascii_lower_idemp x : ascii_lower (ascii_lower x) = ascii_lower x.
Proof.
  unfold ascii_lower, in_range.
  repeat (match goal with
          | |- context [?a <=? ?b] => destruct (N.leb_spec a b)
          end; cbn [andb] in *); lia.
Qed.

Lemma isascii_lower s : isascii s = true → isascii (ascii_lower <$> s) = true.
Proof.
  unfold isascii. rewrite !forallb_forall. intros H y Hy.
  apply in_map_iff in Hy as (x & <- & Hx). specialize (H x Hx).
  apply N.ltb_lt in H. apply N.ltb_lt. unfold ascii_lower, in_range.
  destruct (N.leb_spec 65 x), (N.leb_spec x 90); cbn [andb]; lia.
Qed.

Lemma isascii_drop n s : isascii s = true → isascii (drop n s) = true.
Proof.
  unfold isascii. rewrite !forallb_forall. intros H y Hy. apply H.
  apply list_elem_of_In. apply list_elem_of_In in Hy.
  by apply (subseteq_drop n s).
Qed.

Lemma suffix_single_lower nm :
  suffix [ascii_lower <$> nm] = ascii_lower <$> suffix [nm].
Proof.
  unfold suffix, name. cbn [last default id].
  rewrite (rfind_fmap _ _ _ ascii_lower_dot), length_fmap.
  destruct (_ && _); [by rewrite fmap_drop|done].
Qed.

Lemma suffix_isascii nm : isascii nm = true → isascii (suffix [nm]) = true.
Proof.
  intros H. unfold suffix, name. cbn [last default id].
  destruct (_ && _); [by apply isascii_drop|done].
Qed.

(** X5.  What the selection looks at.  Only the final component of the
    path counts.  A name with no dot, and a name that ends in a dot, is
    never selected.  A name whose only dot is the first character is
    selected exactly when it is one of the three listed dotfiles, and
    there the spelling is exact.  In an ASCII name with an extension the
    case of the letters does not matter. *)
Theorem selection_by_name (unicode_lower : str → str) :
  (∀ root nm,
     should_process_file unicode_lower (root ++ [nm])
     = should_process_file unicode_lower [nm])
  ∧ (∀ nm, 46 ∉ nm → should_process_file unicode_lower [nm] = false)
  ∧ (∀ nm, should_process_file unicode_lower [nm ++ [46]] = false)
  ∧ (∀ nm, 46 ∉ nm →
       should_process_file unicode_lower [46 :: nm] = true
       ↔ 46 :: nm ∈ DOTFILES)
  ∧ (∀ nm, isascii nm = true → suffix [nm] ≠ [] →
       should_process_file unicode_lower [ascii_lower <$> nm]
       = should_process_file unicode_lower [nm]).
Proof.
  assert (str_lower unicode_lower [] ∉ EXTENSIONS) as Hempty
    by (apply (bool_decide_unpack _); by vm_compute).
  split; [apply should_process_file_snoc|]. split; [|split; [|split]].
  - intros nm Hnm. unfold should_process_file.
    assert (suffix [nm] = []) as ->.
    { unfold suffix, name. cbn [last default id].
      by rewrite (rfind_not_elem_of _ _ Hnm). }
    rewrite (bool_decide_eq_false_2 _ Hempty). cbn [negb].
    rewrite bool_decide_eq_true_2 by done.
    cbn [andb name last default id].
    destruct nm as [|c nm]; [done|]. apply not_elem_of_cons in Hnm as [Hc _].
    change (lit ".") with [46]. cbn [startswith].
    destruct (N.eqb_spec 46 c); [congruence|done].
  - intros nm. unfold should_process_file.
    assert (suffix [nm ++ [46]] = []) as ->.
    { unfold suffix, name. cbn [last default id].
      rewrite rfind_snoc, length_app. cbn [length].
      destruct (Z.ltb_spec (Z.of_nat (length nm))
                  (Z.of_nat (length nm + 1) - 1)); [lia|].
      by rewrite andb_false_r. }
    rewrite (bool_decide_eq_false_2 _ Hempty). cbn [negb].
    rewrite bool_decide_eq_true_2 by done.
    cbn [andb name last default id].
    destruct (startswith _ _); [|done]. apply bool_decide_eq_false_2.
    rewrite elem_of_DOTFILES.
    intros [H|[H|H]]; apply (f_equal last) in H; rewrite last_snoc in H;
      vm_compute in H; congruence.
  - intros nm Hnm. unfold should_process_file.
    assert (suffix [46 :: nm] = []) as ->.
    { unfold suffix, name. cbn [last default id rfind].
      by rewrite (rfind_not_elem_of _ _ Hnm). }
    rewrite (bool_decide_eq_false_2 _ Hempty). cbn [negb].
    rewrite bool_decide_eq_true_2 by done.
    cbn [andb name last default id].
    change (startswith (46 :: nm) (lit ".")) with true.
    apply bool_decide_eq_true.
  - intros nm Hascii Hsuf. unfold should_process_file.
    rewrite suffix_single_lower. unfold str_lower.
    rewrite (suffix_isascii _ Hascii).
    rewrite (isascii_lower _ (suffix_isascii _ Hascii)).
    rewrite <- list_fmap_compose.
    rewrite (list_fmap_ext (ascii_lower ∘ ascii_lower) ascii_lower)
      by (intros; apply ascii_lower_idemp).
    destruct (bool_decide (_ ∈ EXTENSIONS)); [done|]. cbn [negb].
    rewrite (bool_decide_eq_false_2 _ Hsuf).
    rewrite bool_decide_eq_false_2; [done|].
    intros Hnil. apply Hsuf. by apply fmap_nil_inv in Hnil.
Qed.

(** ** More on the run *)

Lemma visit_path_fs ul start_dir counts p w :
  fs (visit_path ul start_dir counts p w).2 = fs w
  ∨ ∃ q, fs (visit_path ul start_dir counts p w).2
         = fs (normalize_line_endings q w).2.
Proof.
  unfold visit_path. rewrite visit_eq.
  destruct (should_process_file _ _); [|by left].
  destruct (relative_to _ _); [|by left]. right.
  exists (removelast p ++ [name p]).
  by destruct (normalize_line_endings _ w) as [[e|[|]] w'].
Qed.

(** Whatever each call of [normalize_line_endings] keeps, the run keeps. *)
Lemma main_fs_invariant (R : node → node → Prop) ul argv cwd w :
  (∀ n, R n n) →
  (∀ a b c, R a b → R b c → R a c) →
  (∀ p w0, R (fs w0) (fs (normalize_line_endings p w0).2)) →
  R (fs w) (fs (main ul argv cwd w).2).
Proof.
  intros Hrefl Htrans Hstep.
  assert (∀ l counts w0,
            R (fs w0)
              (fs (for_each (visit_path ul (start_dir_of argv cwd))
                     counts l w0).2)) as Hloop.
  { induction l as [|p l IH]; intros counts w0; [apply Hrefl|].
    cbn [for_each]. unfold mbind, M_bind.
    pose proof (visit_path_fs ul (start_dir_of argv cwd) counts p w0) as Hv.
    destruct (visit_path _ _ counts p w0) as [[e|c1] w1]; cbn [snd] in *.
    - destruct Hv as [->|[q ->]]; [apply Hrefl|apply Hstep].
    - eapply Htrans; [|apply IH].
      destruct Hv as [->|[q ->]]; [apply Hrefl|apply Hstep]. }
  rewrite main_eq.
  destruct (lookup_path (fs w) (start_dir_of argv cwd)) as [n|];
    [|apply Hrefl].
  specialize (Hloop (tree_files (start_dir_of argv cwd) n) (0, 0)%Z
                (World (fs w) (stdout w ++ header (start_dir_of argv cwd)))).
  by destruct (for_each _ _ _ _) as [[e|c] w1].
Qed.

Lemma same_entries_refl n : same_entries n n.
Proof. intros q. by destruct (lookup_path n q) as [[|]|]. Qed.

Lemma same_entries_trans a b c :
  same_entries a b → same_entries b c → same_entries a c.
Proof.
  intros H1 H2 q. specialize (H1 q). specialize (H2 q).
  destruct (lookup_path a q) as [[|]|], (lookup_path b q) as [[|]|],
    (lookup_path c q) as [[|]|]; try done.
  destruct H1, H2. split; congruence.
Qed.

Lemma same_entries_store n p f f' :
  lookup_path n p = Some (NFile f) →
  f_readable f' = f_readable f → f_writable f' = f_writable f →
  same_entries n (store_file n p f').
Proof.
  intros Hp Hr Hw q. destruct (decide (q = p)) as [->|Hne].
  - by rewrite (lookup_store_eq _ _ _ _ Hp), Hp.
  - destruct (decide (q `prefix_of` p)) as [[r ->]|Hpre].
    + destruct (lookup_store_prefix _ _ _ _ f' Hp) as (m & -> & Hm & ->).
      destruct r as [|c r]; [by rewrite app_nil_r in Hne|].
      rewrite lookup_path_cons in Hm. destruct m as [|es]; [done|]. done.
    + rewrite (lookup_store_ne _ _ _ _ _ Hp Hpre).
      by destruct (lookup_path n q) as [[|]|].
Qed.

Lemma normalize_same_entries p w :
  same_entries (fs w) (fs (normalize_line_endings p w).2).
Proof.
  rewrite normalize_line_endings_eq. unfold reported.
  destruct (lookup_path (fs w) p) as [[f|es]|] eqn:E;
    try apply same_entries_refl.
  destruct (f_readable f); [|apply same_entries_refl].
  destruct (bool_decide _); [|apply same_entries_refl].
  destruct (f_writable f); [|apply same_entries_refl].
  cbn [snd fs]. by apply (same_entries_store _ _ f).
Qed.

Lemma rewritten_file_at P n n' q :
  rewritten P n n' → ¬ P q → file_at n' q = file_at n q.
Proof.
  intros Hrw Hq. induction Hrw as [|n p f0 f n' HP Hp _ IH]; [done|].
  rewrite IH. apply (file_at_store_ne _ _ _ f0).
  - unfold file_at. by rewrite Hp.
  - by intros ->.
Qed.

(** X6.  A run leaves every file and directory where it was and as what
    it was: nothing is created, deleted or turned from a file into a
    directory or back, and every file keeps its permissions.  A file that
    is not selected, or that the walk does not reach, keeps its bytes and
    its modification stamp. *)
Theorem run_keeps_the_tree ul argv cwd w :
  same_entries (fs w) (fs (main ul argv cwd w).2)
  ∧ (∀ q, should_process_file ul q = false →
          file_at (fs (main ul argv cwd w).2) q = file_at (fs w) q)
  ∧ (∀ n q, lookup_path (fs w) (start_dir_of argv cwd) = Some n →
            ¬ q ∈ tree_files (start_dir_of argv cwd) n →
            file_at (fs (main ul argv cwd w).2) q = file_at (fs w) q).
Proof.
  split.
  { apply main_fs_invariant;
      [apply same_entries_refl|apply same_entries_trans|
       apply normalize_same_entries]. }
  assert (∀ q,
    match lookup_path (fs w) (start_dir_of argv cwd) with
    | Some n => q ∈ tree_files (start_dir_of argv cwd) n
                ∧ should_process_file ul q = true
    | None => False
    end ∨ file_at (fs (main ul argv cwd w).2) q = file_at (fs w) q) as H.
  { intros q.
    destruct (lookup_path (fs w) (start_dir_of argv cwd)) as [n|] eqn:E.
    - destruct (main_run ul argv cwd w n E)
        as (counts & w1 & _ & -> & _ & _ & Hrw & _). cbn [snd fs].
      destruct (decide (q ∈ tree_files (start_dir_of argv cwd) n
                        ∧ should_process_file ul q = true)) as [|Hq];
        [by left|right].
      by apply (rewritten_file_at _ _ _ _ Hrw).
    - right. by rewrite main_eq, E. }
  split.
  - intros q Hq. destruct (H q) as [H'|H']; [|done].
    destruct (lookup_path _ _); [|done]. destruct H'. congruence.
  - intros n q E Hq. destruct (H q) as [H'|H']; [|done].
    rewrite E in H'. by destruct H'.
Qed.

Lemma visit_path_below ul start_dir counts ds f w :
  visit_path ul start_dir counts (start_dir ++ ds ++ [f]) w
  = if should_process_file ul (start_dir ++ ds ++ [f]) then
      match normalize_line_endings (start_dir ++ ds ++ [f]) w with
      | (inr true, w') =>
          (inr ((counts.1 + 1)%Z, (counts.2 + 1)%Z),
           World (fs w') (stdout w' ++ [Normalized (ds ++ [f])]))
      | (inr false, w') => (inr ((counts.1 + 1)%Z, counts.2), w')
      | (inl e, w') => (inl e, w')
      end
    else (inr counts, w).
Proof.
  rewrite (app_assoc start_dir ds [f]), <- visit_visit_path, visit_eq.
  by rewrite <- (app_assoc start_dir ds [f]), relative_to_app.
Qed.

Lemma count_lines_app test ls1 ls2 :
  count_lines test (ls1 ++ ls2)
  = (count_lines test ls1 + count_lines test ls2)%nat.
Proof. unfold count_lines. by rewrite filter_app, length_app. Qed.

Lemma count_lines_single test l :
  count_lines test [l] = if test l then 1%nat else 0%nat.
Proof.
  unfold count_lines. rewrite filter_cons, filter_nil.
  destruct (test l); [by rewrite decide_True|by rewrite decide_False].
Qed.

(** One turn of the loop: what it counts and what it prints. *)
Lemma visit_path_lines ul start_dir counts p w :
  (∃ ds f, p = start_dir ++ ds ++ [f]) →
  ∃ counts' w' lines,
    visit_path ul start_dir counts p w = (inr counts', w')
    ∧ stdout w' = stdout w ++ lines
    ∧ counts'.2 = (counts.2 + Z.of_nat (count_lines is_normalized lines))%Z
    ∧ (counts'.1 - counts.1
       = Z.of_nat (if should_process_file ul p then 1 else 0))%Z
    ∧ (count_lines is_normalized lines + count_lines is_error lines
       = length lines)%nat
    ∧ (length lines ≤ if should_process_file ul p then 1 else 0)%nat.
Proof.
  intros (ds & f & ->). rewrite visit_path_below.
  destruct (should_process_file _ _).
  2:{ exists counts, w, []. rewrite app_nil_r. cbn. repeat split; lia. }
  rewrite normalize_line_endings_eq. unfold reported.
  assert (∀ out,
    (out = [] ∨ ∃ e, out = [ErrorProcessing (start_dir ++ ds ++ [f]) e]) →
    ∃ counts' w' lines,
      (inr ((counts.1 + 1)%Z, counts.2), World (fs w) (stdout w ++ out))
      = (@inr exn _ counts', w')
      ∧ stdout w' = stdout w ++ lines
      ∧ counts'.2 = (counts.2 + Z.of_nat (count_lines is_normalized lines))%Z
      ∧ (counts'.1 - counts.1 = Z.of_nat 1)%Z
      ∧ (count_lines is_normalized lines + count_lines is_error lines
         = length lines)%nat
      ∧ (length lines ≤ 1)%nat) as Hfalse.
  { intros out Hout. eexists _, _, out. split; [done|]. split; [done|].
    destruct Hout as [->|[e ->]]; rewrite ?count_lines_single;
      cbn; repeat split; lia. }
  destruct (lookup_path (fs w) _) as [[g|es]|];
    [|apply Hfalse; right; by eexists..].
  destruct (f_readable g); [|apply Hfalse; right; by eexists].
  destruct (bool_decide _).
  2:{ destruct (Hfalse []) as (c' & w' & ls & Heq & H); [by left|].
      exists c', w', ls. split; [|done]. rewrite <- Heq.
      destruct w. cbn [fs stdout]. by rewrite app_nil_r. }
  destruct (f_writable g); [|apply Hfalse; right; by eexists].
  eexists _, _, [_]. split; [done|]. rewrite !count_lines_single.
  cbn. repeat split; lia.
Qed.

Lemma loop_lines ul start_dir l :
  Forall (λ p, ∃ ds f, p = start_dir ++ ds ++ [f]) l →
  ∀ counts w, ∃ counts' w' lines,
    for_each (visit_path ul start_dir) counts l w = (inr counts', w')
    ∧ stdout w' = stdout w ++ lines
    ∧ counts'.2 = (counts.2 + Z.of_nat (count_lines is_normalized lines))%Z
    ∧ (counts'.1 - counts.1
       = Z.of_nat (length (filter (λ p, should_process_file ul p = true) l)))%Z
    ∧ (count_lines is_normalized lines + count_lines is_error lines
       = length lines)%nat
    ∧ (Z.of_nat (length lines) ≤ counts'.1 - counts.1)%Z.
Proof.
  induction 1 as [|p l Hp _ IH]; intros counts w.
  { exists counts, w, []. rewrite app_nil_r. cbn. repeat split; lia. }
  destruct (visit_path_lines ul start_dir counts p w Hp)
    as (c1 & w1 & ls1 & Hv & Ho1 & Hn1 & Hp1 & Hk1 & Hl1).
  destruct (IH c1 w1) as (c2 & w2 & ls2 & Hf & Ho2 & Hn2 & Hp2 & Hk2 & Hl2).
  exists c2, w2, (ls1 ++ ls2). cbn [for_each]. unfold mbind, M_bind.
  rewrite Hv. split; [done|]. split; [by rewrite Ho2, Ho1, <- app_assoc|].
  rewrite !count_lines_app, length_app, filter_cons.
  destruct (should_process_file ul p).
  - rewrite decide_True by done. cbn [length]. repeat split; lia.
  - rewrite decide_False by done. repeat split; lia.
Qed.

(** X7.  The summary agrees with the progress lines.  Between the header
    and the summary a run prints only [Normalized] and error lines, at
    most one per processed file; the count of files changed is the number
    of [Normalized] lines, and the count of files unchanged is at least
    the number of error lines. *)
Theorem summary_matches_progress ul argv cwd w n :
  lookup_path (fs w) (start_dir_of argv cwd) = Some n →
  ∃ counts lines w',
    main ul argv cwd w = (inr (), w')
    ∧ stdout w'
      = stdout w ++ header (start_dir_of argv cwd) ++ lines ++ summary counts
    ∧ (count_lines is_normalized lines + count_lines is_error lines
       = length lines)%nat
    ∧ counts.2 = Z.of_nat (count_lines is_normalized lines)
    ∧ (Z.of_nat (count_lines is_error lines) ≤ counts.1 - counts.2)%Z
    ∧ (Z.of_nat (length lines) ≤ counts.1)%Z.
Proof.
  intros E.
  assert (Forall (λ p, ∃ ds f, p = start_dir_of argv cwd ++ ds ++ [f])
            (tree_files (start_dir_of argv cwd) n)) as Hbelow.
  { apply Forall_forall. intros p Hp.
    destruct (tree_files_inv _ _ _ Hp) as (ds & f & -> & _). by eexists _, _. }
  destruct (loop_lines ul _ _ Hbelow (0, 0)%Z
              (World (fs w) (stdout w ++ header (start_dir_of argv cwd))))
    as (counts & w1 & lines & Hloop & Hout & Hn & Hp & Hk & Hl).
  exists counts, lines, (World (fs w1) (stdout w1 ++ summary counts)).
  rewrite main_eq, E, Hloop. split; [done|]. cbn [stdout fst snd] in *.
  split; [by rewrite Hout, <- !app_assoc|]. repeat split; lia.
Qed.

Lemma summary_matches_progress_example :
  ∃ counts lines w',
    main (λ s, s) [[lit "normalize_line_endings.py"]; []] []
      (World example_project [])
    = (inr (), w')
    ∧ stdout w' = header [] ++ lines ++ summary counts
    ∧ counts.2 = Z.of_nat (count_lines is_normalized lines).
Proof.
  destruct (summary_matches_progress (λ s, s)
              [[lit "normalize_line_endings.py"]; []] []
              (World example_project []) example_project eq_refl)
    as (counts & lines & w' & Hmain & Hout & _ & Hn & _).
  exists counts, lines, w'. split; [exact Hmain|]. split; [exact Hout|].
  exact Hn.
Defined.
